(** * gitlabci-viz: include resolution and the extends graph

    A shallow embedding of [parse_includes] and [build_graph] of
    [gitlabci-viz.py], and the properties of the two that the specification
    states.

    Conventions of the embedding.
    - A decoded YAML document is a [yaml] value: the Python objects
      [None], [bool], [int], [str], [list] and [dict] that
      [yaml.safe_load] builds.  Floating point scalars are left out.
      Mapping keys are strings.
    - A Python [dict] is an association list in insertion order; the
      operations keep at most one binding per key when the list they start
      from has at most one.
    - An exception is a value of [exn]; a computation that can raise
      returns an [outcome].
    - The file system and the YAML parser are one function from the path
      given to [open] to what [yaml.safe_load] makes of the file, or to the
      exception that [open] or the parser raises for it.
    - [parse_includes] is recursive over the files it loads, so it takes
      fuel, which bounds the depth of nested includes. *)

From Stdlib Require Import List String Ascii Bool ZArith Lia Arith.
Import ListNotations.
Local Open Scope string_scope.
Local Open Scope list_scope.

Set Implicit Arguments.
Set Warnings "-register-all".

(* ------------------------------------------------------------------ *)
(** ** Python values *)

Inductive yaml : Type :=
| YNull
| YBool (b : bool)
| YInt (z : Z)
| YStr (s : string)
| YSeq (l : list yaml)
| YMap (m : list (string * yaml)).

Definition dict := list (string * yaml).

Inductive exn : Type :=
| FileNotFoundError
| YAMLError
| TypeError
| ValueError
| AttributeError
| OtherException (name : string).   (* any other class, by its name *)

Inductive outcome (A : Type) : Type :=
| Ok (a : A)
| Raise (e : exn)
| OutOfFuel.

Arguments Ok {A} a.
Arguments Raise {A} e.
Arguments OutOfFuel {A}.

(* ------------------------------------------------------------------ *)
(** ** Dictionaries in insertion order *)

Module Assoc.
Section Ops.
Context {K V : Type}.
Variable eqb : K -> K -> bool.

(** [d.get(k)] *)
Fixpoint get (k : K) (d : list (K * V)) : option V :=
  match d with
  | [] => None
  | (k', v) :: d' => if eqb k k' then Some v else get k d'
  end.

(** [k in d] *)
Definition mem (k : K) (d : list (K * V)) : bool :=
  match get k d with Some _ => true | None => false end.

(** [d[k] = v]: an existing key keeps its place, a new one goes last. *)
Fixpoint set (k : K) (v : V) (d : list (K * V)) : list (K * V) :=
  match d with
  | [] => [(k, v)]
  | (k', v') :: d' =>
      if eqb k k' then (k', v) :: d' else (k', v') :: set k v d'
  end.

(** [del d[k]] *)
Definition del (k : K) (d : list (K * V)) : list (K * V) :=
  filter (fun kv => negb (eqb k (fst kv))) d.

(** [d.update(other)] *)
Definition update (d other : list (K * V)) : list (K * V) :=
  fold_left (fun acc kv => set (fst kv) (snd kv) acc) other d.
End Ops.
End Assoc.

Definition dict_get {V} : string -> list (string * V) -> option V :=
  Assoc.get String.eqb.
Definition dict_mem {V} : string -> list (string * V) -> bool :=
  Assoc.mem String.eqb.
Definition dict_set {V} : string -> V -> list (string * V) -> list (string * V) :=
  Assoc.set String.eqb.
Definition dict_del {V} : string -> list (string * V) -> list (string * V) :=
  Assoc.del String.eqb.
Definition dict_update {V} : list (string * V) -> list (string * V) -> list (string * V) :=
  Assoc.update String.eqb.
Definition dict_keys {V} (d : list (string * V)) : list string := map fst d.

(* ------------------------------------------------------------------ *)
(** ** [os.path] on POSIX *)

Definition sep : ascii := "/"%char.

Definition startswith (c : ascii) (s : string) : bool :=
  match s with
  | String c' _ => Ascii.eqb c' c
  | EmptyString => false
  end.

Fixpoint endswith (c : ascii) (s : string) : bool :=
  match s with
  | EmptyString => false
  | String c' EmptyString => Ascii.eqb c' c
  | String _ s' => endswith c s'
  end.

(** [os.path.join(a, b)] *)
Definition join (a b : string) : string :=
  if startswith sep b then b
  else if (String.eqb a "" || endswith sep a)%bool then a ++ b
  else a ++ String sep b.

Fixpoint drop_while {A} (p : A -> bool) (l : list A) : list A :=
  match l with
  | [] => []
  | x :: l' => if p x then drop_while p l' else l
  end.

(** [os.path.dirname(p)]: the head is [p] up to its last separator; its
    trailing separators are stripped unless it consists of separators
    only. *)
Definition dirname (p : string) : string :=
  let is_sep := fun c => Ascii.eqb c sep in
  let rhead := drop_while (fun c => negb (is_sep c)) (rev (list_ascii_of_string p)) in
  let rhead' :=
    if forallb is_sep rhead then rhead else drop_while is_sep rhead in
  string_of_list_ascii (rev rhead').

(* ------------------------------------------------------------------ *)
(** ** The files *)

Inductive file : Type :=
| Missing                 (* [open] raises [FileNotFoundError] *)
| Invalid                 (* [yaml.safe_load] raises [YAMLError] *)
| Parsed (doc : yaml)
| Fails (e : exn).        (* [open], the read or the parser raises [e]:
                             [IsADirectoryError], [PermissionError],
                             [UnicodeDecodeError], [ValueError], ... *)

Definition filesystem := string -> file.

(** A computation that opens files: the paths given to [open], in order,
    and the outcome. *)
Definition IO (A : Type) : Type := (list string * outcome A)%type.

Definition io_ret {A} (a : A) : IO A := ([], Ok a).
Definition io_raise {A} (e : exn) : IO A := ([], Raise e).
Definition io_bind {A B} (c : IO A) (f : A -> IO B) : IO B :=
  match snd c with
  | Ok a => (fst c ++ fst (f a), snd (f a))
  | Raise e => (fst c, Raise e)
  | OutOfFuel => (fst c, OutOfFuel)
  end.

(** [with open(path) as file: yaml.safe_load(file)] *)
Definition safe_load (fs : filesystem) (path : string) : IO yaml :=
  match fs path with
  | Missing => ([path], Raise FileNotFoundError)
  | Invalid => ([path], Raise YAMLError)
  | Parsed doc => ([path], Ok doc)
  | Fails e => ([path], Raise e)
  end.

Declare Scope io_scope.
Delimit Scope io_scope with io.
Notation "x <- c ;; k" := (io_bind c (fun x => k))
  (at level 61, c at next level, right associativity) : io_scope.

(* ------------------------------------------------------------------ *)
(** ** [parse_includes] *)

Section Resolver.
Variable fs : filesystem.

(** [{k: v for k, v in included_data.items() if k != 'include'}] *)
Definition without_include (included_data : dict) : dict :=
  filter (fun kv => negb (String.eqb (fst kv) "include")) included_data.

(** [includes = data['include']], made a list when it is not one. *)
Definition as_list (includes : yaml) : list yaml :=
  match includes with
  | YSeq l => l
  | _ => [includes]
  end.

(** The body of the loop over [includes], for one entry; [rec] is the
    recursive call. *)
Definition merge_include (rec : yaml -> string -> IO yaml)
    (base_dir : string) (data : dict) (include : yaml) : IO dict :=
  match include with
  | YMap entry =>
      match dict_get "local" entry with
      | Some (YStr rel) =>
          let include_path := join base_dir rel in
          (included_data <- safe_load fs include_path ;;
           included_data <- rec included_data (dirname include_path) ;;
           match included_data with
           | YMap included => io_ret (dict_update data (without_include included))
           | _ => io_raise AttributeError
           end)%io
      | Some _ => io_raise TypeError
      | None => io_ret data
      end
  | _ => io_ret data
  end.

(** [for include in includes: ...] *)
Fixpoint for_includes (rec : yaml -> string -> IO yaml)
    (base_dir : string) (includes : list yaml) (data : dict) : IO dict :=
  match includes with
  | [] => io_ret data
  | include :: rest =>
      (data' <- merge_include rec base_dir data include ;;
       for_includes rec base_dir rest data')%io
  end.

Fixpoint parse_includes (fuel : nat) (data : yaml) (base_dir : string)
    : IO yaml :=
  match data with
  | YMap m =>
      match dict_get "include" m with
      | Some includes =>
          match fuel with
          | O => ([], OutOfFuel)
          | S fuel' =>
              (m' <- for_includes (parse_includes fuel') base_dir
                       (as_list includes) m ;;
               io_ret (YMap (dict_del "include" m')))%io
          end
      | None => io_ret data
      end
  | _ => io_ret data
  end.
End Resolver.

(* ------------------------------------------------------------------ *)
(** ** [networkx.DiGraph]

    The graph library is not part of the program; it is modelled by what
    its documentation says of [add_node], [add_edge] and [in].  A node is
    any hashable object but [None].  Python compares dictionary keys with
    [==], under which [True] and [1] are the same key, so a node is
    identified by its [hkey]. *)

Inductive hkey : Type :=
| HNone
| HNum (z : Z)
| HStr (s : string).

(** [hash(n)]: lists and dicts are unhashable. *)
Definition hash_key (n : yaml) : option hkey :=
  match n with
  | YNull => Some HNone
  | YBool b => Some (HNum (if b then 1 else 0)%Z)
  | YInt z => Some (HNum z)
  | YStr s => Some (HStr s)
  | YSeq _ | YMap _ => None
  end.

Definition hkey_eqb (a b : hkey) : bool :=
  match a, b with
  | HNone, HNone => true
  | HNum x, HNum y => Z.eqb x y
  | HStr x, HStr y => String.eqb x y
  | _, _ => false
  end.

Record DiGraph : Type := mkDiGraph {
  nodes : list (hkey * dict);            (* node -> attributes *)
  edges : list ((hkey * hkey) * dict)    (* (u, v) -> attributes *)
}.

Definition edge_eqb (e f : hkey * hkey) : bool :=
  (hkey_eqb (fst e) (fst f) && hkey_eqb (snd e) (snd f))%bool.

Definition empty_graph : DiGraph := mkDiGraph [] [].

(** [n in graph]: false, not an error, for an unhashable [n]. *)
Definition has_node (g : DiGraph) (n : yaml) : bool :=
  match hash_key n with
  | Some k => Assoc.mem hkey_eqb k (nodes g)
  | None => false
  end.

(** [graph.add_node(n, **attr)] *)
Definition add_node (g : DiGraph) (n : yaml) (attr : dict) : outcome DiGraph :=
  match hash_key n with
  | None => Raise TypeError
  | Some k =>
      match Assoc.get hkey_eqb k (nodes g) with
      | Some old =>
          Ok (mkDiGraph (Assoc.set hkey_eqb k (dict_update old attr) (nodes g))
                        (edges g))
      | None =>
          match k with
          | HNone => Raise ValueError
          | _ => Ok (mkDiGraph (Assoc.set hkey_eqb k attr (nodes g)) (edges g))
          end
      end
  end.

(** The start of [add_edge], for each end point: a node that is not in the
    graph yet is added with no attributes. *)
Definition ensure_node (g : DiGraph) (n : yaml) : outcome DiGraph :=
  match hash_key n with
  | None => Raise TypeError
  | Some k =>
      if Assoc.mem hkey_eqb k (nodes g) then Ok g
      else match k with
           | HNone => Raise ValueError
           | _ => Ok (mkDiGraph (Assoc.set hkey_eqb k [] (nodes g)) (edges g))
           end
  end.

(** [graph.add_edge(u, v, **attr)] *)
Definition add_edge (g : DiGraph) (u v : yaml) (attr : dict) : outcome DiGraph :=
  match ensure_node g u with
  | Ok g1 =>
      match ensure_node g1 v with
      | Ok g2 =>
          match hash_key u, hash_key v with
          | Some ku, Some kv =>
              let datadict :=
                match Assoc.get edge_eqb (ku, kv) (edges g2) with
                | Some d => d
                | None => []
                end in
              Ok (mkDiGraph (nodes g2)
                    (Assoc.set edge_eqb (ku, kv) (dict_update datadict attr)
                               (edges g2)))
          | _, _ => Raise TypeError
          end
      | Raise e => Raise e
      | OutOfFuel => OutOfFuel
      end
  | Raise e => Raise e
  | OutOfFuel => OutOfFuel
  end.

(* ------------------------------------------------------------------ *)
(** ** [build_graph]

    The function works on two objects, the document [data] it is given and
    the [graph] it builds; a statement is a step from one pair of them to
    the next, which may raise. *)

Record frame : Type := mkFrame {
  data : yaml;
  graph : DiGraph
}.

Definition St (A : Type) : Type := frame -> (outcome A * frame)%type.

Definition ret {A} (a : A) : St A := fun s => (Ok a, s).
Definition raise {A} (e : exn) : St A := fun s => (Raise e, s).
Definition bind {A B} (c : St A) (f : A -> St B) : St B :=
  fun s =>
    match c s with
    | (Ok a, s') => f a s'
    | (Raise e, s') => (Raise e, s')
    | (OutOfFuel, s') => (OutOfFuel, s')
    end.

Declare Scope st_scope.
Delimit Scope st_scope with st.
Notation "x <- c ;; k" := (bind c (fun x => k))
  (at level 61, c at next level, right associativity) : st_scope.
Notation "c ;; k" := (bind c (fun _ => k))
  (at level 61, right associativity) : st_scope.

Definition read_data : St yaml := fun s => (Ok (data s), s).
Definition read_graph : St DiGraph := fun s => (Ok (graph s), s).

(** A call of a method of [graph] that changes it. *)
Definition on_graph (f : DiGraph -> outcome DiGraph) : St unit :=
  fun s =>
    match f (graph s) with
    | Ok g => (Ok tt, mkFrame (data s) g)
    | Raise e => (Raise e, s)
    | OutOfFuel => (OutOfFuel, s)
    end.

Fixpoint for_each {A} (l : list A) (body : A -> St unit) : St unit :=
  match l with
  | [] => ret tt
  | x :: l' => (body x ;; for_each l' body)%st
  end.

Definition hidden_attr (name : yaml) : dict :=
  [("type", YStr "hidden"); ("label", name); ("color", YStr "#E3F2FD");
   ("shape", YStr "s"); ("edge_color", YStr "#1976D2")].

Definition job_attr (name : yaml) : dict :=
  [("type", YStr "job"); ("label", name); ("color", YStr "#E8F5E9");
   ("shape", YStr "o"); ("edge_color", YStr "#388E3C")].

(** First pass, for one key. *)
Definition add_job_node (job_name : string) : St unit :=
  if startswith "."%char job_name
  then on_graph (fun g => add_node g (YStr job_name) (hidden_attr (YStr job_name)))
  else on_graph (fun g => add_node g (YStr job_name) (job_attr (YStr job_name))).

(** Second pass, for one parent of [job_name]. *)
Definition add_parent (job_name : string) (parent : yaml) : St unit :=
  (g <- read_graph ;;
   (if negb (has_node g parent)
    then on_graph (fun g => add_node g parent (hidden_attr parent))
    else ret tt) ;;
   on_graph (fun g => add_edge g parent (YStr job_name) [("label", YStr "extends")]))%st.

(** Second pass, for one item of [data]. *)
Definition add_extends (item : string * yaml) : St unit :=
  let (job_name, job_config) := item in
  match job_config with
  | YMap config =>
      match dict_get "extends" config with
      | Some extends =>
          let extends :=
            match extends with
            | YStr _ => YSeq [extends]
            | _ => extends
            end in
          match extends with
          | YSeq parents => for_each parents (add_parent job_name)
          | _ => ret tt
          end
      | None => ret tt
      end
  | _ => ret tt
  end.

Definition build_graph_steps : St unit :=
  (d <- read_data ;;
   match d with
   | YMap m =>
       for_each (dict_keys m) add_job_node ;;
       d' <- read_data ;;
       match d' with
       | YMap m' => for_each m' add_extends
       | _ => raise AttributeError
       end
   | _ => raise AttributeError
   end)%st.

(** [build_graph(data)]: the graph returned, or the exception. *)
Definition build_graph (d : yaml) : outcome DiGraph :=
  match build_graph_steps (mkFrame d empty_graph) with
  | (Ok _, s) => Ok (graph s)
  | (Raise e, _) => Raise e
  | (OutOfFuel, _) => OutOfFuel
  end.

(** The document as [build_graph] leaves it, whether it returns or raises. *)
Definition data_after_build_graph (d : yaml) : yaml :=
  data (snd (build_graph_steps (mkFrame d empty_graph))).

(* ------------------------------------------------------------------ *)
(** ** [parse_gitlab_ci_yaml] and [main]

    [os.path.abspath] depends on the working directory of the process; it
    is an argument here. *)

(** [parse_gitlab_ci_yaml(file_path)] *)
Definition parse_gitlab_ci_yaml (abspath : string -> string) (fs : filesystem)
    (fuel : nat) (file_path : string) : IO yaml :=
  (data <- safe_load fs file_path ;;
   parse_includes fs fuel data (dirname (abspath file_path)))%io.

(** [main()] up to the graph it hands to [visualize_graph]; the drawing is
    not modelled. *)
Definition main (abspath : string -> string) (fs : filesystem) (fuel : nat)
    : IO DiGraph :=
  (data <- parse_gitlab_ci_yaml abspath fs fuel ".gitlab-ci.yml" ;;
   ([], build_graph data))%io.

(* ------------------------------------------------------------------ *)
(** ** Notions used in the statements *)

(** [include['local']] when [include] is a dict with that key: the test
    that guards the body of the loop. *)
Definition local_path (include : yaml) : option yaml :=
  match include with
  | YMap entry => dict_get "local" entry
  | _ => None
  end.

(** [keys_of d]: the top level keys of a document. *)
Definition keys_of (d : yaml) : list string :=
  match d with
  | YMap m => dict_keys m
  | _ => []
  end.

(** [items_of d]: the top level bindings of a document. *)
Definition items_of (d : yaml) : dict :=
  match d with
  | YMap m => m
  | _ => []
  end.

(** [rel] is the path of a local entry of the [include] of [d]. *)
Definition local_entry (d : yaml) (rel : string) : Prop :=
  exists m includes include,
    d = YMap m /\ dict_get "include" m = Some includes /\
    In include (as_list includes) /\ local_path include = Some (YStr rel).

(** A run of the loop over [includes] that raises nothing: from [m], with
    the files opened and the dictionary at the end. *)
Inductive loop_run (fs : filesystem) (rec : yaml -> string -> IO yaml) (base : string)
  : list yaml -> dict -> list string -> dict -> Prop :=
| run_nil : forall m, loop_run fs rec base [] m [] m
| run_skip : forall include rest m tr m',
    local_path include = None ->
    loop_run fs rec base rest m tr m' ->
    loop_run fs rec base (include :: rest) m tr m'
| run_local : forall include rest rel doc tr1 r m tr m',
    local_path include = Some (YStr rel) ->
    fs (join base rel) = Parsed doc ->
    rec doc (dirname (join base rel)) = (tr1, Ok (YMap r)) ->
    loop_run fs rec base rest (dict_update m (without_include r)) tr m' ->
    loop_run fs rec base (include :: rest) m (join base rel :: tr1 ++ tr) m'.

(** The include chain of a document is finite, and nothing in it can raise:
    every local path is a string, and the file it names is there and holds a
    mapping whose own chain is such. *)
Inductive loadable (fs : filesystem) : yaml -> string -> Prop :=
| loadable_plain : forall d base,
    (forall m, d = YMap m -> dict_get "include" m = None) ->
    loadable fs d base
| loadable_include : forall m base includes,
    dict_get "include" m = Some includes ->
    entries_loadable fs base (as_list includes) ->
    loadable fs (YMap m) base
with entries_loadable (fs : filesystem) : string -> list yaml -> Prop :=
| entries_nil : forall base, entries_loadable fs base []
| entries_skip : forall base include rest,
    local_path include = None ->
    entries_loadable fs base rest ->
    entries_loadable fs base (include :: rest)
| entries_local : forall base include rel m rest,
    local_path include = Some (YStr rel) ->
    fs (join base rel) = Parsed (YMap m) ->
    loadable fs (YMap m) (dirname (join base rel)) ->
    entries_loadable fs base rest ->
    entries_loadable fs base (include :: rest).

Scheme loadable_mut := Induction for loadable Sort Prop
  with entries_loadable_mut := Induction for entries_loadable Sort Prop.

(** [included_file fs d base path doc]: resolving [d] from [base] reaches,
    through one local include or a chain of them, the file at [path], which
    holds [doc].  Each path of the chain is taken from the directory of the
    file that names it. *)
Inductive included_file (fs : filesystem)
  : yaml -> string -> string -> yaml -> Prop :=
| included_direct : forall d base rel doc,
    local_entry d rel ->
    fs (join base rel) = Parsed doc ->
    included_file fs d base (join base rel) doc
| included_nested : forall d base rel doc path doc',
    local_entry d rel ->
    fs (join base rel) = Parsed doc ->
    included_file fs doc (dirname (join base rel)) path doc' ->
    included_file fs d base path doc'.

(** The paths the resolution of [d] from [base] has to open. *)
Definition include_path (fs : filesystem) (d : yaml) (base p : string) : Prop :=
  (exists rel, local_entry d rel /\ p = join base rel) \/
  (exists path doc rel,
      included_file fs d base path doc /\ local_entry doc rel /\
      p = join (dirname path) rel).

(** The document that one entry of [includes] brings in: the file it names,
    resolved by [rec]; [None] when the entry is skipped or cannot be loaded
    as a mapping. *)
Definition included_document (fs : filesystem)
    (rec : yaml -> string -> IO yaml) (base : string) (include : yaml)
    : option dict :=
  match local_path include with
  | Some (YStr rel) =>
      match fs (join base rel) with
      | Parsed doc =>
          match snd (rec doc (dirname (join base rel))) with
          | Ok (YMap r) => Some r
          | _ => None
          end
      | _ => None
      end
  | _ => None
  end.

(** [key_anywhere k d]: [k] is a key of [d] or of a mapping inside [d]. *)
Fixpoint key_anywhere (k : string) (d : yaml) : bool :=
  match d with
  | YSeq l =>
      (fix in_list (l : list yaml) : bool :=
         match l with
         | [] => false
         | x :: l' => key_anywhere k x || in_list l'
         end) l
  | YMap m =>
      (fix in_items (m : list (string * yaml)) : bool :=
         match m with
         | [] => false
         | (k', v) :: m' => String.eqb k' k || key_anywhere k v || in_items m'
         end) m
  | _ => false
  end.

(** Two includes and a local definition of the same key. *)
Definition merge_fs : filesystem := fun p =>
  if String.eqb p "./a.yml" then
    Parsed (YMap [("build", YMap [("stage", YStr "a")]); ("lint", YInt 1)])
  else if String.eqb p "./b.yml" then
    Parsed (YMap [("build", YMap [("extends", YStr ".setup")])])
  else Missing.

(** The root document of [merge_fs]: both files define [build], and so
    does the root. *)
Definition merge_root : dict :=
  [("include", YSeq [YMap [("local", YStr "a.yml")]; YMap [("local", YStr "b.yml")]]);
   ("build", YMap [("script", YStr "x")]);
   ("deploy", YInt 3)].

(** A chain of two files in another directory than the root, and a file of
    the same name as the second next to the root. *)
Definition chain_fs : filesystem := fun p =>
  if String.eqb p "/a/sub/b.yml" then
    Parsed (YMap [("include", YMap [("local", YStr "c.yml")]);
                  ("b-job", YMap [("include", YStr "kept")])])
  else if String.eqb p "/a/sub/c.yml" then
    Parsed (YMap [("c-job", YMap [("script", YStr "c")])])
  else if String.eqb p "/a/c.yml" then
    Parsed (YMap [("other", YMap [("script", YStr "o")])])
  else Missing.

(** The root document of [chain_fs], loaded from [/a/.gitlab-ci.yml]. *)
Definition chain_root : yaml :=
  YMap [("include", YMap [("local", YStr "sub/b.yml")]);
        ("test", YMap [("script", YStr "t")])].

(** [triple P c Q R]: from a state in [P], [c] returns in a state in [Q] or
    raises in a state in [R]. *)
Definition triple {A} (P : frame -> Prop) (c : St A)
    (Q : A -> frame -> Prop) (R : frame -> Prop) : Prop :=
  forall s, P s ->
    match c s with
    | (Ok a, s') => Q a s'
    | (_, s') => R s'
    end.

(** A computation that leaves the document alone. *)
Definition keeps_data {A} (c : St A) : Prop :=
  forall s, data (snd (c s)) = data s.

(** The parents that the [extends] of a job definition names: the list the
    second pass loops over, empty when there is no loop. *)
Definition parents_of (job_config : yaml) : list yaml :=
  match job_config with
  | YMap config =>
      match dict_get "extends" config with
      | Some (YStr s) => [YStr s]
      | Some (YSeq parents) => parents
      | _ => []
      end
  | _ => []
  end.

(** The attributes [build_graph] gives to an edge. *)
Definition extends_label : dict := [("label", YStr "extends")].

(** The attributes the first pass gives to the node of a key. *)
Definition attrs_for (name : string) : dict :=
  if startswith "."%char name then hidden_attr (YStr name) else job_attr (YStr name).

(** [graph.nodes[n]['type']] *)
Definition node_type (g : DiGraph) (k : hkey) : option yaml :=
  match Assoc.get hkey_eqb k (nodes g) with
  | Some attr => dict_get "type" attr
  | None => None
  end.

(** The graph after one parent was handled: the node of the parent is there,
    made now when it was not, and so is the edge to the job. *)
Definition link (k : hkey) (parent : yaml) (job_name : string) (g : DiGraph)
    : DiGraph :=
  mkDiGraph
    (if Assoc.mem hkey_eqb k (nodes g) then nodes g
     else Assoc.set hkey_eqb k (hidden_attr parent) (nodes g))
    (Assoc.set edge_eqb (k, HStr job_name)
       (dict_update
          (match Assoc.get edge_eqb (k, HStr job_name) (edges g) with
           | Some d => d
           | None => []
           end) extends_label)
       (edges g)).

(** What a node of the graph of [m] can be: the node of a key, with the
    attributes of the first pass, or a node that is not a key, made for a
    parent with the attributes of a hidden job. *)
Definition node_ok (m : dict) (k : hkey) (a : dict) : Prop :=
  (exists name, k = HStr name /\ In name (dict_keys m) /\ a = attrs_for name) \/
  ((forall name, k = HStr name -> ~ In name (dict_keys m)) /\
   exists n, hash_key n = Some k /\ a = hidden_attr n).

(** What holds of the graph of [m] after every step: no node and no edge is
    there twice, every node is as [node_ok] says, every edge has the label
    [extends]. *)
Definition graph_inv (m : dict) (g : DiGraph) : Prop :=
  NoDup (map fst (nodes g)) /\
  NoDup (map fst (edges g)) /\
  (forall k a, Assoc.get hkey_eqb k (nodes g) = Some a -> node_ok m k a) /\
  (forall e a, Assoc.get edge_eqb e (edges g) = Some a -> a = extends_label).

(** Every key of [m] is a node. *)
Definition keys_in (m : dict) (g : DiGraph) : Prop :=
  forall name, In name (dict_keys m) ->
    Assoc.mem hkey_eqb (HStr name) (nodes g) = true.

(** The node of [parent] and the edge from it to [job_name] are there. *)
Definition linked (g : DiGraph) (job_name : string) (parent : yaml) : Prop :=
  exists k, hash_key parent = Some k /\
    Assoc.mem hkey_eqb k (nodes g) = true /\
    Assoc.get edge_eqb (k, HStr job_name) (edges g) = Some extends_label.

(** Every parent of every job can be a node: it is hashable and not
    [None]. *)
Definition parents_valid (m : dict) : Prop :=
  forall job_name job_config parent,
    In (job_name, job_config) m -> In parent (parents_of job_config) ->
    exists k, hash_key parent = Some k /\ k <> HNone.

(** The state between two steps of the second pass; [done] are the pairs
    of a job and a parent handled so far. *)
Definition second_pass_inv (m : dict) (done : list (string * yaml)) (s : frame) : Prop :=
  data s = YMap m /\ graph_inv m (graph s) /\ keys_in m (graph s) /\
  forall job_name parent, In (job_name, parent) done ->
    linked (graph s) job_name parent.

(** The pairs of a job and a parent that the items name. *)
Definition references (items : list (string * yaml)) : list (string * yaml) :=
  flat_map (fun item => map (pair (fst item)) (parents_of (snd item))) items.

(** The state between two steps of the first pass; [done] are the keys
    handled so far. *)
Definition first_pass_inv_at (m : dict) (done : list string) (s : frame) : Prop :=
  data s = YMap m /\ graph_inv m (graph s) /\
  forall name, In name done ->
    Assoc.mem hkey_eqb (HStr name) (nodes (graph s)) = true.

(** Equality of nodes and of edges is decidable. *)
Definition hkey_eq_dec : forall a b : hkey, {a = b} + {a <> b}.
Proof.
  decide equality; [apply Z.eq_dec | apply string_dec].
Defined.

Definition edge_eq_dec : forall e f : hkey * hkey, {e = f} + {e <> f}.
Proof.
  decide equality; apply hkey_eq_dec.
Defined.

(** A job that extends a name that is not a key and has no leading dot, and
    the graph [build_graph] makes of it. *)
Definition one_job : dict := [("test", YMap [("extends", YStr "base")])].

Definition one_job_graph : DiGraph :=
  mkDiGraph
    [(HStr "test", job_attr (YStr "test")); (HStr "base", hidden_attr (YStr "base"))]
    [((HStr "base", HStr "test"), extends_label)].

(** Three references to two parents, one of them a key of the document. *)
Definition fan_in : dict :=
  [("c", YMap [("extends", YSeq [YStr "a"; YStr ".b"; YStr "a"])]);
   ("d", YMap [("extends", YStr "a")]);
   ("a", YMap [("script", YStr "make")])].

(** An empty file among the includes. *)
Definition empty_file_fs : filesystem := fun p =>
  if String.eqb p "./empty.yml" then Parsed YNull else merge_fs p.

(** Where a node of the graph of [m] comes from: a key of [m], or a parent
    that some job of [m] names, which is not [None]. *)
Definition node_sourced (m : dict) (k : hkey) : Prop :=
  (exists name, k = HStr name /\ In name (dict_keys m)) \/
  (k <> HNone /\
   exists job_name job_config parent,
     In (job_name, job_config) m /\ In parent (parents_of job_config) /\
     hash_key parent = Some k).

(** Where an edge of the graph of [m] comes from: a job of [m] and a parent
    it names. *)
Definition edge_sourced (m : dict) (e : hkey * hkey) : Prop :=
  exists job_name job_config parent,
    In (job_name, job_config) m /\ In parent (parents_of job_config) /\
    hash_key parent = Some (fst e) /\ snd e = HStr job_name.

(** The graph has nothing but what [m] gives rise to. *)
Definition sourced (m : dict) (g : DiGraph) : Prop :=
  (forall k, In k (map fst (nodes g)) -> node_sourced m k) /\
  (forall e, In e (map fst (edges g)) -> edge_sourced m e).

(** What [build_graph] reads of a document: its keys, in order, each with
    the parents its definition names. *)
Definition job_parents (m : dict) : list (string * list yaml) :=
  map (fun item => (fst item, parents_of (snd item))) m.

(** The second pass, on what it reads of the document. *)
Definition link_parents (refs : list (string * list yaml)) : St unit :=
  for_each refs (fun jp => for_each (snd jp) (add_parent (fst jp))).

(** A computation whose outcome and graph do not depend on the document. *)
Definition data_blind {A} (c : St A) : Prop :=
  forall d1 d2 g,
    fst (c (mkFrame d1 g)) = fst (c (mkFrame d2 g)) /\
    graph (snd (c (mkFrame d1 g))) = graph (snd (c (mkFrame d2 g))).

(** A file that includes itself. *)
Definition self_doc : yaml :=
  YMap [("include", YMap [("local", YStr "self.yml")]);
        ("job", YMap [("script", YStr "x")])].

Definition self_fs : filesystem := fun p =>
  if String.eqb p "./self.yml" then Parsed self_doc else Missing.

(** An included file whose own include is missing. *)
Definition dangling_fs : filesystem := fun p =>
  if String.eqb p "./outer.yml" then
    Parsed (YMap [("include", YMap [("local", YStr "gone.yml")])])
  else Missing.

(** [chain_fs] with its root file; the working directory is [/a]. *)
Definition project_fs : filesystem := fun p =>
  if String.eqb p ".gitlab-ci.yml" then Parsed chain_root else chain_fs p.

Definition project_abspath (p : string) : string := "/a/" ++ p.

(** [merge_fs] with a directory where a file is expected. *)
Definition directory_fs : filesystem := fun p =>
  if String.eqb p "./jobs" then Fails (OtherException "IsADirectoryError")
  else merge_fs p.

(** A project whose root file is empty. *)
Definition empty_project_fs : filesystem := fun p =>
  if String.eqb p ".gitlab-ci.yml" then Parsed YNull else Missing.

(** [one_job] with the parent in a list and another field in the job. *)
Definition one_job_list : dict :=
  [("test", YMap [("script", YStr "make"); ("extends", YSeq [YStr "base"])])].


(* ------------------------------------------------------------------ *)
(** * Properties *)

(** ** Dictionaries *)

Section AssocFacts.
Context {K V : Type}.
Variable eqb : K -> K -> bool.
Hypothesis eqb_eq : forall x y, eqb x y = true <-> x = y.

Lemma eqb_refl' : forall x, eqb x x = true.
Proof. intro x. apply eqb_eq. reflexivity. Qed.

Lemma eqb_neq' : forall x y, x <> y -> eqb x y = false.
Proof.
  intros x y H. destruct (eqb x y) eqn:E; [|reflexivity].
  apply eqb_eq in E. contradiction.
Qed.

Lemma get_set_same : forall k (v : V) d,
  Assoc.get eqb k (Assoc.set eqb k v d) = Some v.
Proof.
  intros k v d. induction d as [|[k' v'] d IH]; simpl.
  - rewrite eqb_refl'. reflexivity.
  - destruct (eqb k k') eqn:E; simpl; rewrite E; [reflexivity | exact IH].
Qed.

Lemma get_set_other : forall k k' (v : V) d,
  k <> k' -> Assoc.get eqb k' (Assoc.set eqb k v d) = Assoc.get eqb k' d.
Proof.
  intros k k' v d Hne. induction d as [|[k0 v0] d IH]; simpl.
  - rewrite eqb_neq'; [reflexivity | congruence].
  - destruct (eqb k k0) eqn:E; simpl.
    + apply eqb_eq in E. subst k0.
      rewrite (eqb_neq' (x:=k') (y:=k)); [reflexivity | congruence].
    + rewrite IH. reflexivity.
Qed.

Lemma get_set : forall k k' (v : V) d,
  Assoc.get eqb k' (Assoc.set eqb k v d) =
  if eqb k k' then Some v else Assoc.get eqb k' d.
Proof.
  intros k k' v d. destruct (eqb k k') eqn:E.
  - apply eqb_eq in E. subst. apply get_set_same.
  - apply get_set_other. intro H. subst. rewrite eqb_refl' in E. discriminate.
Qed.

Lemma mem_set : forall k k' (v : V) d,
  Assoc.mem eqb k' d = true -> Assoc.mem eqb k' (Assoc.set eqb k v d) = true.
Proof.
  intros k k' v d. unfold Assoc.mem. rewrite get_set.
  destruct (eqb k k'); [reflexivity | tauto].
Qed.

Lemma mem_set_same : forall k (v : V) d,
  Assoc.mem eqb k (Assoc.set eqb k v d) = true.
Proof. intros k v d. unfold Assoc.mem. rewrite get_set_same. reflexivity. Qed.

Lemma mem_In : forall k (d : list (K * V)),
  Assoc.mem eqb k d = true <-> In k (map fst d).
Proof.
  intros k d. unfold Assoc.mem. destruct (Assoc.get eqb k d) as [v|] eqn:E.
  - split; [intros _ | reflexivity].
    clear - E eqb_eq. induction d as [|[k' v'] d IH]; simpl in *; [discriminate|].
    destruct (eqb k k') eqn:E'; [left; symmetry; apply eqb_eq, E' | right; auto].
  - split; [discriminate|]. intro H. exfalso.
    clear - E H eqb_eq. induction d as [|[k' v'] d IH]; simpl in *; [tauto|].
    destruct (eqb k k') eqn:E'; [discriminate|].
    destruct H as [H | H]; [| auto].
    subst. rewrite eqb_refl' in E'. discriminate.
Qed.

Lemma get_In : forall k (v : V) d,
  Assoc.get eqb k d = Some v -> In (k, v) d.
Proof.
  intros k v d. induction d as [|[k' v'] d IH]; simpl; [discriminate|].
  destruct (eqb k k') eqn:E.
  - apply eqb_eq in E. intros [= ->]. subst. left. reflexivity.
  - intro H. right. apply IH, H.
Qed.

Lemma get_None : forall k (d : list (K * V)),
  Assoc.get eqb k d = None <-> ~ In k (map fst d).
Proof.
  intros k d. induction d as [|[k' v'] d IH]; simpl.
  - tauto.
  - destruct (eqb k k') eqn:E.
    + apply eqb_eq in E. subst. split; [discriminate | intro H; exfalso; tauto].
    + rewrite IH. split; [| tauto].
      intros H [H1 | H1]; [| tauto].
      subst. rewrite eqb_refl' in E. discriminate.
Qed.

Lemma get_Some_key : forall k (v : V) d,
  Assoc.get eqb k d = Some v -> In k (map fst d).
Proof.
  intros k v d H. apply get_In in H. apply (in_map fst) in H. exact H.
Qed.

Lemma In_key_get : forall k (d : list (K * V)),
  In k (map fst d) -> exists v, Assoc.get eqb k d = Some v.
Proof.
  intros k d H. destruct (Assoc.get eqb k d) as [v|] eqn:E.
  - exists v. reflexivity.
  - apply get_None in E. contradiction.
Qed.

Lemma NoDup_In_get : forall k (v : V) d,
  NoDup (map fst d) -> In (k, v) d -> Assoc.get eqb k d = Some v.
Proof.
  intros k v d. induction d as [|[k' v'] d IH]; simpl; [tauto|].
  intros Hnd [H | H].
  - injection H as -> ->. rewrite eqb_refl'. reflexivity.
  - inversion Hnd as [|? ? Hnotin Hnd']; subst.
    destruct (eqb k k') eqn:E.
    + apply eqb_eq in E. subst. exfalso. apply Hnotin.
      apply (in_map fst) in H. exact H.
    + apply IH; assumption.
Qed.

Lemma keys_set : forall k (v : V) d k',
  In k' (map fst (Assoc.set eqb k v d)) <-> k' = k \/ In k' (map fst d).
Proof.
  intros k v d k'. induction d as [|[k0 v0] d IH]; simpl.
  - intuition.
  - destruct (eqb k k0) eqn:E; simpl.
    + apply eqb_eq in E. subst. intuition.
    + rewrite IH. intuition.
Qed.

Lemma NoDup_set : forall k (v : V) d,
  NoDup (map fst d) -> NoDup (map fst (Assoc.set eqb k v d)).
Proof.
  intros k v d. induction d as [|[k0 v0] d IH]; simpl; intro Hnd.
  - constructor; [simpl; tauto | constructor].
  - inversion Hnd as [|? ? Hnotin Hnd']; subst.
    destruct (eqb k k0) eqn:E; simpl.
    + constructor; assumption.
    + constructor; [| apply IH; assumption].
      rewrite keys_set. intros [H | H]; [| contradiction].
      subst. rewrite eqb_refl' in E. discriminate.
Qed.

Lemma get_del_same : forall k (d : list (K * V)),
  Assoc.get eqb k (Assoc.del eqb k d) = None.
Proof.
  intros k d. induction d as [|[k' v'] d IH]; simpl; [reflexivity|].
  destruct (eqb k k') eqn:E; simpl; [exact IH | rewrite E; exact IH].
Qed.

Lemma get_del_other : forall k k' (d : list (K * V)),
  k <> k' -> Assoc.get eqb k' (Assoc.del eqb k d) = Assoc.get eqb k' d.
Proof.
  intros k k' d Hne. induction d as [|[k0 v0] d IH]; simpl; [reflexivity|].
  destruct (eqb k k0) eqn:E; simpl.
  - apply eqb_eq in E. subst k0.
    rewrite (eqb_neq' (x:=k') (y:=k)); [exact IH | congruence].
  - rewrite IH. reflexivity.
Qed.

Lemma keys_del : forall k (d : list (K * V)) k',
  In k' (map fst (Assoc.del eqb k d)) <-> In k' (map fst d) /\ k' <> k.
Proof.
  intros k d k'. unfold Assoc.del.
  induction d as [|[k0 v0] d IH]; simpl; [tauto|].
  destruct (eqb k k0) eqn:E; simpl.
  - apply eqb_eq in E. subst. rewrite IH. intuition congruence.
  - rewrite IH. intuition; subst; try congruence.
    rewrite eqb_refl' in E. discriminate.
Qed.

(** [update]: a key that [other] does not have keeps its value. *)
Lemma get_update_absent : forall k (other d : list (K * V)),
  ~ In k (map fst other) ->
  Assoc.get eqb k (Assoc.update eqb d other) = Assoc.get eqb k d.
Proof.
  intros k other. unfold Assoc.update.
  induction other as [|[k0 v0] other IH]; simpl; intros d Hn; [reflexivity|].
  rewrite IH by tauto.
  apply get_set_other. intro; subst; tauto.
Qed.

(** [update]: a key of [other] gets the value [other] has for it. *)
Lemma get_update_present : forall k (v : V) (other d : list (K * V)),
  NoDup (map fst other) -> In (k, v) other ->
  Assoc.get eqb k (Assoc.update eqb d other) = Some v.
Proof.
  intros k v other. unfold Assoc.update.
  induction other as [|[k0 v0] other IH]; simpl; intros d Hnd Hin; [tauto|].
  inversion Hnd as [|? ? Hnotin Hnd']; subst.
  destruct Hin as [H | H].
  - injection H as -> ->.
    fold (Assoc.update eqb (Assoc.set eqb k v d) other).
    rewrite get_update_absent by assumption.
    apply get_set_same.
  - apply IH; assumption.
Qed.

Lemma keys_update : forall k (other d : list (K * V)),
  In k (map fst (Assoc.update eqb d other)) <->
  In k (map fst d) \/ In k (map fst other).
Proof.
  intros k other. unfold Assoc.update.
  induction other as [|[k0 v0] other IH]; simpl; intros d; [tauto|].
  rewrite IH, keys_set. intuition.
Qed.
End AssocFacts.

Arguments get_set {K V eqb} eqb_eq k k' v d.
Arguments get_set_same {K V eqb} eqb_eq k v d.
Arguments NoDup_set {K V eqb} eqb_eq k v d _.
Arguments mem_set {K V eqb} eqb_eq k k' v d _.
Arguments mem_set_same {K V eqb} eqb_eq k v d.
Arguments mem_In {K V eqb} eqb_eq k d.
Arguments get_In {K V eqb} eqb_eq k v d _.
Arguments NoDup_In_get {K V eqb} eqb_eq k v d _ _.

Lemma string_eqb_eq : forall x y : string, String.eqb x y = true <-> x = y.
Proof. exact String.eqb_eq. Qed.

Section DictFacts.
Context {V : Type}.
Implicit Types (d other : list (string * V)) (k : string) (v : V).

Lemma dict_keys_update : forall k other d,
  In k (dict_keys (dict_update d other)) <->
  In k (dict_keys d) \/ In k (dict_keys other).
Proof. intros. apply keys_update. exact string_eqb_eq. Qed.

Lemma dict_keys_del : forall k d k',
  In k' (dict_keys (dict_del k d)) <-> In k' (dict_keys d) /\ k' <> k.
Proof. intros. apply keys_del. exact string_eqb_eq. Qed.

Lemma dict_get_del_same : forall k d, dict_get k (dict_del k d) = None.
Proof. intros. apply get_del_same. Qed.

Lemma dict_get_del_other : forall k k' d,
  k <> k' -> dict_get k' (dict_del k d) = dict_get k' d.
Proof. intros. apply get_del_other; [exact string_eqb_eq | assumption]. Qed.

Lemma dict_get_update_absent : forall k other d,
  ~ In k (dict_keys other) -> dict_get k (dict_update d other) = dict_get k d.
Proof. intros. apply get_update_absent; [exact string_eqb_eq | assumption]. Qed.

Lemma dict_get_update_present : forall k v other d,
  NoDup (dict_keys other) -> In (k, v) other ->
  dict_get k (dict_update d other) = Some v.
Proof. intros. apply get_update_present; [exact string_eqb_eq | assumption ..]. Qed.

Lemma dict_get_None : forall k d, dict_get k d = None <-> ~ In k (dict_keys d).
Proof. intros. apply get_None. exact string_eqb_eq. Qed.

Lemma dict_get_In : forall k v d, dict_get k d = Some v -> In (k, v) d.
Proof. intros k v d. apply (get_In string_eqb_eq). Qed.

Lemma dict_key_get : forall k d,
  In k (dict_keys d) -> exists v, dict_get k d = Some v.
Proof. intros k d. apply In_key_get. exact string_eqb_eq. Qed.
End DictFacts.

Lemma without_include_keys : forall (r : dict) k,
  In k (dict_keys (without_include r)) <-> In k (dict_keys r) /\ k <> "include".
Proof.
  intros r k. unfold without_include, dict_keys.
  induction r as [|[k0 v0] r IH]; simpl; [tauto|].
  destruct (String.eqb k0 "include") eqn:E; simpl.
  - apply String.eqb_eq in E. subst. rewrite IH. intuition congruence.
  - apply String.eqb_neq in E. rewrite IH. intuition congruence.
Qed.

Lemma without_include_In : forall (r : dict) k v,
  In (k, v) (without_include r) <-> In (k, v) r /\ k <> "include".
Proof.
  intros r k v. unfold without_include. rewrite filter_In. simpl.
  rewrite negb_true_iff, String.eqb_neq. tauto.
Qed.

Lemma without_include_NoDup : forall r : dict,
  NoDup (dict_keys r) -> NoDup (dict_keys (without_include r)).
Proof.
  intros r. unfold without_include, dict_keys.
  induction r as [|[k0 v0] r IH]; simpl; intro H; [constructor|].
  inversion H as [|? ? Hn Hnd]; subst.
  destruct (String.eqb k0 "include"); simpl; [apply IH, Hnd|].
  constructor; [| apply IH, Hnd].
  intro Hin. apply Hn.
  apply (without_include_keys r k0) in Hin. apply Hin.
Qed.

(* ------------------------------------------------------------------ *)
(** ** The resolver *)

Lemma io_bind_ok : forall A B (c : IO A) (f : A -> IO B) tr b,
  io_bind c f = (tr, Ok b) ->
  exists tr1 a tr2, c = (tr1, Ok a) /\ f a = (tr2, Ok b) /\ tr = tr1 ++ tr2.
Proof.
  intros A B [tr1 [a | e |]] f tr b; unfold io_bind; simpl; intro H;
    try discriminate.
  destruct (f a) as [tr2 r] eqn:E. simpl in H. injection H as <- ->.
  exists tr1, a, tr2. auto.
Qed.

Lemma io_bind_step : forall A B (c : IO A) (f : A -> IO B) tr1 a,
  c = (tr1, Ok a) -> io_bind c f = (tr1 ++ fst (f a), snd (f a)).
Proof. intros A B c f tr1 a ->. reflexivity. Qed.

Lemma io_bind_raise : forall A B (c : IO A) (f : A -> IO B) tr1 e,
  c = (tr1, Raise e) -> io_bind c f = (tr1, Raise e).
Proof. intros A B c f tr1 e ->. reflexivity. Qed.

Section ResolverFacts.
Variable fs : filesystem.

Lemma merge_include_skip : forall rec base m include,
  local_path include = None ->
  merge_include fs rec base m include = ([], Ok m).
Proof.
  intros rec base m include H. destruct include; simpl in *; try reflexivity.
  rewrite H. reflexivity.
Qed.

Lemma merge_include_local : forall rec base m include rel,
  local_path include = Some (YStr rel) ->
  merge_include fs rec base m include =
  (included_data <- safe_load fs (join base rel) ;;
   included_data <- rec included_data (dirname (join base rel)) ;;
   match included_data with
   | YMap included => io_ret (dict_update m (without_include included))
   | _ => io_raise AttributeError
   end)%io.
Proof.
  intros rec base m include rel H. destruct include; simpl in H; try discriminate.
  simpl. rewrite H. reflexivity.
Qed.

Lemma merge_include_not_str : forall rec base m include v,
  local_path include = Some v -> (forall s, v <> YStr s) ->
  merge_include fs rec base m include = ([], Raise TypeError).
Proof.
  intros rec base m include v H Hv. destruct include; simpl in H; try discriminate.
  simpl. rewrite H. destruct v; try reflexivity. exfalso. eapply Hv. reflexivity.
Qed.

Lemma merge_include_ok : forall rec base m include tr m',
  merge_include fs rec base m include = (tr, Ok m') ->
  (local_path include = None /\ tr = [] /\ m' = m) \/
  (exists rel doc tr1 r,
      local_path include = Some (YStr rel) /\
      fs (join base rel) = Parsed doc /\
      rec doc (dirname (join base rel)) = (tr1, Ok (YMap r)) /\
      tr = join base rel :: tr1 /\
      m' = dict_update m (without_include r)).
Proof.
  intros rec base m include tr m' H.
  destruct (local_path include) as [v|] eqn:E.
  - right. destruct v as [| | | rel | |];
      try (rewrite (merge_include_not_str rec base m include E) in H;
           [discriminate | intros s; discriminate]).
    rewrite (merge_include_local rec base m include E) in H.
    apply io_bind_ok in H. destruct H as (t1 & doc & t2 & H1 & H2 & ->).
    apply io_bind_ok in H2. destruct H2 as (t3 & d & t4 & H3 & H4 & ->).
    unfold safe_load in H1.
    destruct (fs (join base rel)) as [| | doc0 | e0] eqn:F; try discriminate.
    injection H1 as Ht Hd. subst t1 doc0.
    destruct d as [| | | | | r]; try discriminate.
    injection H4 as <- <-.
    exists rel, doc, t3, r. rewrite app_nil_r. auto.
  - left. rewrite merge_include_skip in H by assumption.
    injection H as <- <-. auto.
Qed.

Lemma for_includes_run : forall rec base includes m tr m',
  for_includes fs rec base includes m = (tr, Ok m') ->
  loop_run fs rec base includes m tr m'.
Proof.
  intros rec base includes.
  induction includes as [|include rest IH]; simpl; intros m tr m' H.
  - injection H as <- <-. constructor.
  - apply io_bind_ok in H. destruct H as (t1 & m1 & t2 & H1 & H2 & ->).
    apply IH in H2. apply merge_include_ok in H1.
    destruct H1 as [(Hl & -> & ->) | (rel & doc & tr1 & r & Hl & Hf & Hr & -> & ->)].
    + simpl. apply run_skip; assumption.
    + simpl. eapply run_local; eassumption.
Qed.

Lemma run_for_includes : forall rec base includes m tr m',
  loop_run fs rec base includes m tr m' ->
  for_includes fs rec base includes m = (tr, Ok m').
Proof.
  intros rec base includes m tr m' H.
  induction H as [m | include rest m tr m' Hl _ IH
                  | include rest rel doc tr1 r m tr m' Hl Hf Hr _ IH]; simpl.
  - reflexivity.
  - rewrite (io_bind_step _ (merge_include_skip rec base m include Hl)).
    rewrite IH. reflexivity.
  - assert (Hm : merge_include fs rec base m include =
                 (join base rel :: tr1, Ok (dict_update m (without_include r)))).
    { rewrite (merge_include_local rec base m include Hl).
      unfold safe_load. rewrite Hf.
      unfold io_bind at 1. simpl. unfold io_bind. rewrite Hr. simpl.
      rewrite app_nil_r. reflexivity. }
    rewrite (io_bind_step _ Hm). rewrite IH. reflexivity.
Qed.

Lemma for_includes_app : forall rec base pre post m tr m1,
  for_includes fs rec base pre m = (tr, Ok m1) ->
  for_includes fs rec base (pre ++ post) m =
  (tr ++ fst (for_includes fs rec base post m1),
   snd (for_includes fs rec base post m1)).
Proof.
  intros rec base pre post.
  induction pre as [|include pre IH]; simpl; intros m tr m1 H.
  - injection H as <- <-. simpl. apply surjective_pairing.
  - apply io_bind_ok in H. destruct H as (t1 & m0 & t2 & H1 & H2 & ->).
    rewrite (io_bind_step _ H1). rewrite (IH _ _ _ H2). simpl.
    rewrite app_assoc. reflexivity.
Qed.

Lemma parse_includes_unfold : forall fuel m includes base,
  dict_get "include" m = Some includes ->
  parse_includes fs (S fuel) (YMap m) base =
  (m' <- for_includes fs (parse_includes fs fuel) base (as_list includes) m ;;
   io_ret (YMap (dict_del "include" m')))%io.
Proof. intros fuel m includes base H. simpl. rewrite H. reflexivity. Qed.

Lemma parse_includes_plain : forall fuel d base,
  (forall m, d = YMap m -> dict_get "include" m = None) ->
  parse_includes fs fuel d base = ([], Ok d).
Proof.
  intros fuel d base H. destruct d as [| | | | | m]; destruct fuel; try reflexivity;
    simpl; rewrite (H m eq_refl); reflexivity.
Qed.

(** What a call that returns has done. *)
Lemma parse_includes_ok : forall fuel d base tr r,
  parse_includes fs fuel d base = (tr, Ok r) ->
  ((forall m, d = YMap m -> dict_get "include" m = None) /\ tr = [] /\ r = d) \/
  (exists fuel' m includes m',
      fuel = S fuel' /\ d = YMap m /\ dict_get "include" m = Some includes /\
      loop_run fs (parse_includes fs fuel') base (as_list includes) m tr m' /\
      r = YMap (dict_del "include" m')).
Proof.
  intros fuel d base tr r H.
  destruct d as [| | | | | m];
    try (left; rewrite parse_includes_plain in H by (intros; discriminate);
         injection H as <- <-; split; [intros; discriminate | auto]).
  destruct (dict_get "include" m) as [includes|] eqn:E.
  - right. destruct fuel as [|fuel'].
    + simpl in H. rewrite E in H. discriminate.
    + rewrite (parse_includes_unfold fuel' m base E) in H.
      apply io_bind_ok in H. destruct H as (t1 & m' & t2 & H1 & H2 & ->).
      injection H2 as <- <-. rewrite app_nil_r.
      exists fuel', m, includes, m'. repeat split; auto.
      apply for_includes_run. exact H1.
  - left. rewrite parse_includes_plain in H.
    + injection H as <- <-. split; [| auto]. intros m0 [= <-]. exact E.
    + intros m0 [= <-]. exact E.
Qed.
End ResolverFacts.

Section ResolverRuns.
Variable fs : filesystem.

Lemma loop_run_rec : forall (rec1 rec2 : yaml -> string -> IO yaml) base includes m tr m',
  (forall d b t r, rec1 d b = (t, Ok r) -> rec2 d b = (t, Ok r)) ->
  loop_run fs rec1 base includes m tr m' ->
  loop_run fs rec2 base includes m tr m'.
Proof.
  intros rec1 rec2 base includes m tr m' Hrec H.
  induction H; [constructor | apply run_skip; assumption |].
  eapply run_local; eauto.
Qed.

Lemma parse_includes_of_run : forall fuel m includes base tr m',
  dict_get "include" m = Some includes ->
  loop_run fs (parse_includes fs fuel) base (as_list includes) m tr m' ->
  parse_includes fs (S fuel) (YMap m) base =
  (tr, Ok (YMap (dict_del "include" m'))).
Proof.
  intros fuel m includes base tr m' Hi Hrun.
  rewrite (parse_includes_unfold fs fuel m base Hi).
  rewrite (io_bind_step _ (run_for_includes Hrun)). simpl.
  rewrite app_nil_r. reflexivity.
Qed.

(** More fuel does not change a result. *)
Lemma parse_includes_fuel : forall fuel fuel' d base tr r,
  parse_includes fs fuel d base = (tr, Ok r) ->
  fuel <= fuel' ->
  parse_includes fs fuel' d base = (tr, Ok r).
Proof.
  induction fuel as [|fuel IH]; intros fuel' d base tr r H Hle;
    apply parse_includes_ok in H;
    destruct H as [(Hp & -> & ->) | (f0 & m & includes & m' & Hf & -> & Hi & Hrun & ->)];
    try (apply parse_includes_plain; assumption); try discriminate.
  injection Hf as <-.
  destruct fuel' as [|fuel']; [lia|].
  apply parse_includes_of_run with (includes := includes); [assumption|].
  eapply loop_run_rec; [| exact Hrun].
  intros d b t r H. eapply IH; [exact H | lia].
Qed.

Lemma parse_includes_map : forall fuel m base tr r,
  parse_includes fs fuel (YMap m) base = (tr, Ok r) -> exists m', r = YMap m'.
Proof.
  intros fuel m base tr r H. apply parse_includes_ok in H.
  destruct H as [(_ & _ & ->) | (f0 & m0 & includes & m' & _ & _ & _ & _ & ->)];
    eexists; reflexivity.
Qed.

(** A loadable chain is resolved with enough fuel. *)
Lemma loadable_returns : forall d base,
  loadable fs d base ->
  exists fuel tr r, parse_includes fs fuel d base = (tr, Ok r).
Proof.
  intros d base H.
  induction H using loadable_mut with
    (P0 := fun base includes _ =>
             exists fuel, forall m, exists tr m',
               loop_run fs (parse_includes fs fuel) base includes m tr m').
  - exists 0, [], d. apply parse_includes_plain. assumption.
  - destruct IHloadable as (fuel & Hrun).
    destruct (Hrun m) as (tr & m' & Hr).
    exists (S fuel), tr, (YMap (dict_del "include" m')).
    apply parse_includes_of_run with (includes := includes); assumption.
  - exists 0. intro m. exists [], m. constructor.
  - destruct IHloadable as (fuel & Hrun). exists fuel. intro m0.
    destruct (Hrun m0) as (tr & m' & Hr).
    exists tr, m'. apply run_skip; assumption.
  - destruct IHloadable as (f1 & tr1 & r1 & H1).
    destruct IHloadable0 as (f2 & Hrun).
    destruct (parse_includes_map _ _ _ H1) as (mr & ->).
    exists (Nat.max f1 f2). intro m0.
    destruct (Hrun (dict_update m0 (without_include mr))) as (tr & m' & Hr).
    exists (join base rel :: tr1 ++ tr), m'.
    eapply run_local; eauto.
    + eapply parse_includes_fuel; [exact H1 | lia].
    + eapply loop_run_rec; [| exact Hr].
      intros d0 b0 t0 r0 H0. eapply parse_includes_fuel; [exact H0 | lia].
Qed.

Lemma loop_run_keys : forall rec base includes m tr m',
  loop_run fs rec base includes m tr m' ->
  forall k, In k (dict_keys m) -> In k (dict_keys m').
Proof.
  intros rec base includes m tr m' H.
  induction H; intros k Hk; auto.
  apply IHloop_run. apply dict_keys_update. left. exact Hk.
Qed.

(** Each local entry of a run was loaded, resolved and merged. *)
Lemma loop_run_entry : forall rec base includes m tr m',
  loop_run fs rec base includes m tr m' ->
  forall include rel,
    In include includes -> local_path include = Some (YStr rel) ->
    exists doc tr1 r,
      fs (join base rel) = Parsed doc /\
      rec doc (dirname (join base rel)) = (tr1, Ok (YMap r)) /\
      In (join base rel) tr /\
      (forall p, In p tr1 -> In p tr) /\
      (forall k, In k (dict_keys r) -> k <> "include" -> In k (dict_keys m')).
Proof.
  intros rec base includes m tr m' H.
  induction H as [m | include rest m tr m' Hl Hrun IH
                  | include rest rel doc tr1 r m tr m' Hl Hf Hr Hrun IH];
    intros inc rel0 Hin Hloc.
  - destruct Hin.
  - destruct Hin as [-> | Hin]; [congruence|].
    exact (IH inc rel0 Hin Hloc).
  - destruct Hin as [-> | Hin].
    + assert (rel0 = rel) by congruence. subst rel0.
      exists doc, tr1, r. repeat split; auto.
      * left. reflexivity.
      * intros p Hp. right. apply in_or_app. left. exact Hp.
      * intros k Hk Hne. eapply loop_run_keys; [exact Hrun|].
        apply dict_keys_update. right.
        apply without_include_keys. split; assumption.
    + destruct (IH inc rel0 Hin Hloc) as (doc0 & tr0 & r0 & H1 & H2 & H3 & H4 & H5).
      exists doc0, tr0, r0. repeat split; auto.
      * right. apply in_or_app. right. exact H3.
      * intros p Hp. right. apply in_or_app. right. auto.
Qed.

(** Each file a run opened belongs to a local entry. *)
Lemma loop_run_opened : forall rec base includes m tr m',
  loop_run fs rec base includes m tr m' ->
  forall p, In p tr ->
    exists include rel doc tr1 r,
      In include includes /\ local_path include = Some (YStr rel) /\
      fs (join base rel) = Parsed doc /\
      rec doc (dirname (join base rel)) = (tr1, Ok (YMap r)) /\
      (p = join base rel \/ In p tr1).
Proof.
  intros rec base includes m tr m' H.
  induction H as [m | include rest m tr m' Hl Hrun IH
                  | include rest rel doc tr1 r m tr m' Hl Hf Hr Hrun IH];
    intros p Hp.
  - destruct Hp.
  - destruct (IH p Hp) as (inc & rel & doc & tr1 & r & H1 & H2).
    exists inc, rel, doc, tr1, r. split; [right; exact H1 | exact H2].
  - destruct Hp as [<- | Hp]; [| apply in_app_or in Hp; destruct Hp as [Hp | Hp]].
    + exists include, rel, doc, tr1, r. repeat split; auto. left. reflexivity.
    + exists include, rel, doc, tr1, r. repeat split; auto. left. reflexivity.
    + destruct (IH p Hp) as (inc & rel0 & doc0 & tr0 & r0 & H1 & H2).
      exists inc, rel0, doc0, tr0, r0. split; [right; exact H1 | exact H2].
Qed.
End ResolverRuns.

Section ResolverMerge.
Variable fs : filesystem.
Variable rec : yaml -> string -> IO yaml.
Variable base : string.

Lemma included_document_run : forall include rel doc tr1 r,
  local_path include = Some (YStr rel) ->
  fs (join base rel) = Parsed doc ->
  rec doc (dirname (join base rel)) = (tr1, Ok (YMap r)) ->
  included_document fs rec base include = Some r.
Proof.
  intros include rel doc tr1 r Hl Hf Hr. unfold included_document.
  rewrite Hl, Hf, Hr. reflexivity.
Qed.

Lemma included_document_inv : forall include r,
  included_document fs rec base include = Some r ->
  exists rel doc tr1,
    local_path include = Some (YStr rel) /\
    fs (join base rel) = Parsed doc /\
    rec doc (dirname (join base rel)) = (tr1, Ok (YMap r)).
Proof.
  intros include r. unfold included_document.
  destruct (local_path include) as [[| | | rel | |]|] eqn:L; try discriminate.
  destruct (fs (join base rel)) as [| | doc | e0] eqn:F; try discriminate.
  destruct (rec doc (dirname (join base rel))) as [tr1 [[| | | | | r0] | |]] eqn:E;
    simpl; try discriminate.
  intros [= ->]. exists rel, doc, tr1. auto.
Qed.

(** The loop runs to its end when every local entry can be loaded. *)
Lemma loop_run_exists : forall includes,
  (forall include, In include includes -> local_path include <> None ->
     exists r, included_document fs rec base include = Some r) ->
  forall m, exists tr m', loop_run fs rec base includes m tr m'.
Proof.
  induction includes as [|include rest IH]; intros H m.
  - exists [], m. constructor.
  - assert (Hrest : forall i, In i rest -> local_path i <> None ->
              exists r, included_document fs rec base i = Some r).
    { intros i Hi. apply H. right. exact Hi. }
    destruct (local_path include) as [v|] eqn:E.
    + destruct (H include) as (r & Hr); [left; reflexivity | congruence |].
      apply included_document_inv in Hr.
      destruct Hr as (rel & doc & tr1 & Hl & Hf & Hrec).
      destruct (IH Hrest (dict_update m (without_include r))) as (tr & m' & Hrun).
      exists (join base rel :: tr1 ++ tr), m'. eapply run_local; eauto.
    + destruct (IH Hrest m) as (tr & m' & Hrun).
      exists tr, m'. apply run_skip; assumption.
Qed.

(** A key that no included document has is left as it was. *)
Lemma loop_run_untouched : forall includes m tr m' k,
  loop_run fs rec base includes m tr m' ->
  (forall include r, In include includes ->
     included_document fs rec base include = Some r -> dict_get k r = None) ->
  dict_get k m' = dict_get k m.
Proof.
  intros includes m tr m' k H.
  induction H as [m | include rest m tr m' Hl Hrun IH
                  | include rest rel doc tr1 r m tr m' Hl Hf Hr Hrun IH];
    intro Hnone.
  - reflexivity.
  - apply IH. intros i r Hi. apply Hnone. right. exact Hi.
  - rewrite IH by (intros i r0 Hi; apply Hnone; right; exact Hi).
    apply dict_get_update_absent.
    intro Hin. apply without_include_keys in Hin. destruct Hin as [Hin _].
    assert (Hk : dict_get k r = None).
    { apply (Hnone include r); [left; reflexivity|].
      eapply included_document_run; eassumption. }
    apply dict_get_None in Hk. contradiction.
Qed.

(** The last included document that has a key decides its value. *)
Lemma loop_run_last_wins : forall pre include post m tr m' r k v,
  loop_run fs rec base (pre ++ include :: post) m tr m' ->
  included_document fs rec base include = Some r ->
  NoDup (dict_keys r) ->
  dict_get k r = Some v ->
  k <> "include" ->
  (forall include' r', In include' post ->
     included_document fs rec base include' = Some r' -> dict_get k r' = None) ->
  dict_get k m' = Some v.
Proof.
  induction pre as [|i0 pre IH]; simpl;
    intros include post m tr m' r k v Hrun Hdoc Hnd Hget Hne Hpost.
  - apply included_document_inv in Hdoc.
    destruct Hdoc as (rel & doc & tr1 & Hl & Hf & Hrec).
    inversion Hrun as [| ? ? ? ? ? Hl' Hrun' | ? ? rel' doc' tr1' r' ? tr' ? Hl' Hf' Hrec' Hrun'];
      subst; [congruence|].
    assert (rel' = rel) by congruence. subst rel'.
    assert (doc' = doc) by congruence. subst doc'.
    assert (r' = r) by congruence. subst r'.
    rewrite (loop_run_untouched k Hrun' Hpost).
    apply dict_get_update_present.
    + apply without_include_NoDup. exact Hnd.
    + apply without_include_In. split; [apply dict_get_In; exact Hget | exact Hne].
  - inversion Hrun; subst; eapply IH; eauto.
Qed.
End ResolverMerge.

Section ResolverChains.
Variable fs : filesystem.

Lemma parse_includes_top_level : forall fuel d base tr r,
  parse_includes fs fuel d base = (tr, Ok r) -> ~ In "include" (keys_of r).
Proof.
  intros fuel d base tr r H. apply parse_includes_ok in H.
  destruct H as [(Hp & _ & ->) | (f0 & m & includes & m' & _ & _ & _ & _ & ->)].
  - destruct d as [| | | | | m]; simpl; try tauto.
    apply dict_get_None. apply Hp. reflexivity.
  - simpl. intro Hin. apply dict_keys_del in Hin. destruct Hin as [_ Hne].
    apply Hne. reflexivity.
Qed.

Lemma parse_includes_keeps_keys : forall fuel d base tr r,
  parse_includes fs fuel d base = (tr, Ok r) ->
  forall k, In k (keys_of d) -> k <> "include" -> In k (keys_of r).
Proof.
  intros fuel d base tr r H k Hk Hne. apply parse_includes_ok in H.
  destruct H as [(_ & _ & ->) | (f0 & m & includes & m' & _ & -> & _ & Hrun & ->)].
  - exact Hk.
  - simpl in *. apply dict_keys_del. split; [| exact Hne].
    eapply loop_run_keys; eassumption.
Qed.

(** A local entry of a document that was resolved: its file was opened,
    resolved in turn, and its keys are in the result. *)
Lemma local_entry_resolved : forall fuel d base tr r rel,
  parse_includes fs fuel d base = (tr, Ok r) ->
  local_entry d rel ->
  exists doc fuel' tr1 r1,
    fs (join base rel) = Parsed doc /\
    parse_includes fs fuel' doc (dirname (join base rel)) = (tr1, Ok r1) /\
    In (join base rel) tr /\
    (forall p, In p tr1 -> In p tr) /\
    (forall k, In k (keys_of r1) -> k <> "include" -> In k (keys_of r)).
Proof.
  intros fuel d base tr r rel H (m & includes & include & -> & Hi & Hin & Hl).
  apply parse_includes_ok in H.
  destruct H as [(Hp & _ & _) | (f0 & m0 & includes0 & m' & _ & Hd & Hi0 & Hrun & ->)].
  - rewrite (Hp m eq_refl) in Hi. discriminate.
  - injection Hd as <-. assert (includes0 = includes) by congruence. subst.
    destruct (loop_run_entry Hrun include Hin Hl)
      as (doc & tr1 & r1 & Hf & Hrec & Hopen & Hsub & Hkeys).
    exists doc, f0, tr1, (YMap r1). repeat split; auto.
    intros k Hk Hne. simpl in *. apply dict_keys_del. split; auto.
Qed.

Lemma included_file_resolved : forall d base path doc,
  included_file fs d base path doc ->
  forall fuel tr r,
    parse_includes fs fuel d base = (tr, Ok r) ->
    In path tr /\
    (forall rel, local_entry doc rel -> In (join (dirname path) rel) tr) /\
    (forall k, In k (keys_of doc) -> k <> "include" -> In k (keys_of r)).
Proof.
  intros d base path doc H.
  induction H as [d base rel doc Hloc Hf | d base rel doc path doc' Hloc Hf _ IH];
    intros fuel tr r Hp;
    destruct (@local_entry_resolved fuel d base tr r rel Hp Hloc)
      as (doc0 & f1 & tr1 & r1 & Hf0 & Hrec & Hopen & Hsub & Hkeys);
    assert (doc0 = doc) by congruence; subst doc0.
  - split; [exact Hopen | split].
    + intros rel' Hloc'.
      destruct (@local_entry_resolved _ _ _ _ _ rel' Hrec Hloc')
        as (_ & _ & _ & _ & _ & _ & Hopen' & _).
      apply Hsub, Hopen'.
    + intros k Hk Hne. apply Hkeys; [| exact Hne].
      eapply parse_includes_keeps_keys; eassumption.
  - destruct (IH _ _ _ Hrec) as (H1 & H2 & H3).
    split; [apply Hsub, H1 | split].
    + intros rel' Hloc'. apply Hsub, H2, Hloc'.
    + intros k Hk Hne. apply Hkeys; [| exact Hne]. apply H3; assumption.
Qed.

(** Nothing else is opened. *)
Lemma opened_is_include_path : forall fuel d base tr r,
  parse_includes fs fuel d base = (tr, Ok r) ->
  forall p, In p tr -> include_path fs d base p.
Proof.
  induction fuel as [|fuel IH]; intros d base tr r H p Hp;
    apply parse_includes_ok in H;
    destruct H as [(_ & -> & _) | (f0 & m & includes & m' & Hf & -> & Hi & Hrun & ->)];
    try (destruct Hp); try discriminate.
  injection Hf as <-.
  destruct (loop_run_opened Hrun p Hp)
    as (include & rel & doc & tr1 & r1 & Hin & Hl & Hfile & Hrec & Hcase).
  assert (Hloc : local_entry (YMap m) rel).
  { exists m, includes, include. auto. }
  destruct Hcase as [-> | Hp1].
  - left. exists rel. auto.
  - right. destruct (IH _ _ _ _ Hrec p Hp1)
      as [(rel' & Hloc' & ->) | (path & doc' & rel' & Hinc & Hloc' & ->)].
    + exists (join base rel), doc, rel'. repeat split; auto.
      apply included_direct; assumption.
    + exists path, doc', rel'. repeat split; auto.
      eapply included_nested; eassumption.
Qed.
End ResolverChains.

Section ResolverBindings.
Variable fs : filesystem.

Lemma dict_set_In : forall k v k0 v0 (d : dict),
  In (k, v) (dict_set k0 v0 d) -> (k, v) = (k0, v0) \/ In (k, v) d.
Proof.
  intros k v k0 v0 d. unfold dict_set.
  induction d as [|[k1 v1] d IH]; simpl.
  - intros [H | []]. left. symmetry. exact H.
  - destruct (String.eqb k0 k1) eqn:E; simpl.
    + apply String.eqb_eq in E. subst k1.
      intros [H | H]; [left; symmetry; exact H | right; right; exact H].
    + intros [H | H]; [right; left; exact H|].
      destruct (IH H) as [H' | H']; [left; exact H' | right; right; exact H'].
Qed.

Lemma dict_update_In : forall k v (other d : dict),
  In (k, v) (dict_update d other) -> In (k, v) d \/ In (k, v) other.
Proof.
  intros k v other. unfold dict_update, Assoc.update.
  induction other as [|[k0 v0] other IH]; simpl; intros d H; [left; exact H|].
  destruct (IH _ H) as [H' | H']; [| right; right; exact H'].
  apply dict_set_In in H'. destruct H' as [H' | H'].
  - right. left. symmetry. exact H'.
  - left. exact H'.
Qed.

Lemma dict_del_In : forall k v k0 (d : dict),
  In (k, v) (dict_del k0 d) -> In (k, v) d.
Proof.
  intros k v k0 d H. unfold dict_del, Assoc.del in H.
  apply filter_In in H. apply H.
Qed.

Lemma keys_of_items : forall d, keys_of d = dict_keys (items_of d).
Proof. intros [| | | | |]; reflexivity. Qed.

(** A binding at the end of a run was there at the start or is a binding of
    a document the run merged. *)
Lemma loop_run_binding : forall rec base includes m tr m',
  loop_run fs rec base includes m tr m' ->
  forall k v, In (k, v) m' ->
    In (k, v) m \/
    exists include rel doc tr1 r1,
      In include includes /\ local_path include = Some (YStr rel) /\
      fs (join base rel) = Parsed doc /\
      rec doc (dirname (join base rel)) = (tr1, Ok (YMap r1)) /\
      In (k, v) r1.
Proof.
  intros rec base includes m tr m' H.
  induction H as [m | include rest m tr m' Hl Hrun IH
                  | include rest rel doc tr1 r m tr m' Hl Hf Hr Hrun IH];
    intros k v Hin.
  - left. exact Hin.
  - destruct (IH k v Hin) as [H | (inc & rel & doc & tr1 & r1 & H1 & H2)];
      [left; exact H | right].
    exists inc, rel, doc, tr1, r1. split; [right; exact H1 | exact H2].
  - destruct (IH k v Hin) as [H | (inc & rel0 & doc0 & tr0 & r0 & H1 & H2)].
    + apply dict_update_In in H. destruct H as [H | H]; [left; exact H | right].
      apply without_include_In in H. destruct H as [H _].
      exists include, rel, doc, tr1, r. repeat split; auto. left. reflexivity.
    + right. exists inc, rel0, doc0, tr0, r0. split; [right; exact H1 | exact H2].
Qed.

(** Every binding of the document returned is, as it is, a binding of the
    document given or of a file of its include chain. *)
Lemma parse_includes_binding : forall fuel d base tr r,
  parse_includes fs fuel d base = (tr, Ok r) ->
  forall k v, In (k, v) (items_of r) ->
    In (k, v) (items_of d) \/
    exists path doc, included_file fs d base path doc /\ In (k, v) (items_of doc).
Proof.
  induction fuel as [|fuel IH]; intros d base tr r H k v Hin;
    apply parse_includes_ok in H;
    destruct H as [(_ & _ & ->) | (f0 & m & includes & m' & Hf & -> & Hi & Hrun & ->)];
    try (left; exact Hin); try discriminate.
  injection Hf as <-. simpl in Hin. apply dict_del_In in Hin.
  destruct (loop_run_binding Hrun k v Hin)
    as [H | (include & rel & doc & tr1 & r1 & Hinc & Hl & Hfile & Hrec & Hb)];
    [left; exact H | right].
  assert (Hloc : local_entry (YMap m) rel).
  { exists m, includes, include. auto. }
  destruct (IH _ _ _ _ Hrec k v Hb) as [H | (path & doc' & Hnest & H)].
  - exists (join base rel), doc. split; [| exact H].
    apply included_direct; assumption.
  - exists path, doc'. split; [| exact H].
    eapply included_nested; eassumption.
Qed.
End ResolverBindings.

(* ------------------------------------------------------------------ *)
(** ** Claims on the resolver *)

(** C8.  A mapping without an [include] key is returned as it is, and so is
    an input that is not a mapping; no file is opened and nothing is
    raised, whatever the fuel. *)
Theorem parse_includes_identity : forall fs fuel base,
  (forall m, dict_mem "include" m = false ->
     parse_includes fs fuel (YMap m) base = ([], Ok (YMap m))) /\
  (forall d, (forall m, d <> YMap m) ->
     parse_includes fs fuel d base = ([], Ok d)).
Proof.
  intros fs fuel base. split.
  - intros m H. apply parse_includes_plain. intros m0 [= <-].
    unfold dict_mem, Assoc.mem in H. unfold dict_get.
    destruct (Assoc.get String.eqb "include" m); [discriminate | reflexivity].
  - intros d H. apply parse_includes_plain. intros m ->. exfalso.
    apply (H m). reflexivity.
Qed.

(** C9.  When the entries before it were merged and the file of a local
    entry parses to something that is not a mapping, the merge raises
    [AttributeError], which is neither the error of a missing file nor that
    of the parser; the entry is neither merged nor skipped. *)
Theorem parse_includes_non_mapping_file : forall fs fuel base m includes
    pre include post rel doc tr1 m1,
  dict_get "include" m = Some includes ->
  as_list includes = pre ++ include :: post ->
  for_includes fs (parse_includes fs fuel) base pre m = (tr1, Ok m1) ->
  local_path include = Some (YStr rel) ->
  fs (join base rel) = Parsed doc ->
  (forall m0, doc <> YMap m0) ->
  parse_includes fs (S fuel) (YMap m) base =
    (tr1 ++ [join base rel], Raise AttributeError) /\
  AttributeError <> FileNotFoundError /\ AttributeError <> YAMLError.
Proof.
  intros fs fuel base m includes pre include post rel doc tr1 m1
    Hi Hl Hpre Hloc Hf Hdoc.
  split; [| split; discriminate].
  assert (Hm : merge_include fs (parse_includes fs fuel) base m1 include =
               ([join base rel], Raise AttributeError)).
  { rewrite (merge_include_local fs _ base m1 include Hloc).
    unfold safe_load. rewrite Hf. unfold io_bind at 1. simpl.
    rewrite (parse_includes_plain fs fuel (dirname (join base rel)))
      by (intros m0 ->; exfalso; apply (Hdoc m0); reflexivity).
    destruct doc as [| | | | | m0]; try reflexivity.
    exfalso. apply (Hdoc m0). reflexivity. }
  rewrite (parse_includes_unfold fs fuel m base Hi), Hl.
  rewrite (for_includes_app fs _ base pre (include :: post) m Hpre).
  simpl for_includes.
  rewrite (io_bind_raise _ Hm). simpl.
  apply io_bind_raise. reflexivity.
Qed.

(** C2.  When every local entry of the include sequence can be loaded, the
    call returns, and in the document it returns a key other than
    [include] holds the value of the last included document, in the order of
    the sequence, that has the key, whatever the document held for it
    before; a key that no included document has keeps its value. *)
Theorem includes_merged_in_order : forall fs fuel base m includes,
  dict_get "include" m = Some includes ->
  (forall include, In include (as_list includes) -> local_path include <> None ->
     exists r, included_document fs (parse_includes fs fuel) base include = Some r) ->
  exists tr m',
    parse_includes fs (S fuel) (YMap m) base = (tr, Ok (YMap m')) /\
    (forall pre include post r k v,
       as_list includes = pre ++ include :: post ->
       included_document fs (parse_includes fs fuel) base include = Some r ->
       NoDup (dict_keys r) ->
       dict_get k r = Some v ->
       k <> "include" ->
       (forall include' r', In include' post ->
          included_document fs (parse_includes fs fuel) base include' = Some r' ->
          dict_get k r' = None) ->
       dict_get k m' = Some v) /\
    (forall k, k <> "include" ->
       (forall include r, In include (as_list includes) ->
          included_document fs (parse_includes fs fuel) base include = Some r ->
          dict_get k r = None) ->
       dict_get k m' = dict_get k m).
Proof.
  intros fs fuel base m includes Hi Hall.
  destruct (loop_run_exists fs (parse_includes fs fuel) base (as_list includes) Hall m)
    as (tr & m1 & Hrun).
  exists tr, (dict_del "include" m1). split; [| split].
  - apply parse_includes_of_run with (includes := includes); assumption.
  - intros pre include post r k v Hsplit Hdoc Hnd Hget Hne Hpost.
    rewrite dict_get_del_other by congruence.
    rewrite Hsplit in Hrun.
    eapply loop_run_last_wins; eassumption.
  - intros k Hne Hnone.
    rewrite dict_get_del_other by congruence.
    eapply loop_run_untouched; eassumption.
Qed.

Lemma includes_merged_in_order_witness :
  exists tr m',
    parse_includes merge_fs 1 (YMap merge_root) "." = (tr, Ok (YMap m')) /\
    dict_get "build" m' = Some (YMap [("extends", YStr ".setup")]) /\
    dict_get "deploy" m' = Some (YInt 3).
Proof.
  destruct (@includes_merged_in_order merge_fs 0 "." merge_root
              (YSeq [YMap [("local", YStr "a.yml")]; YMap [("local", YStr "b.yml")]])
              eq_refl) as (tr & m' & Hp & Hlast & Hkeep).
  - intros include [<- | [<- | []]] _; eexists; reflexivity.
  - exists tr, m'. split; [exact Hp | split].
    + apply (Hlast [YMap [("local", YStr "a.yml")]] (YMap [("local", YStr "b.yml")]) []
               [("build", YMap [("extends", YStr ".setup")])]).
      * reflexivity.
      * reflexivity.
      * repeat constructor; simpl; tauto.
      * reflexivity.
      * discriminate.
      * intros include' r' [].
    + rewrite Hkeep; [reflexivity | discriminate |].
      intros include r [<- | [<- | []]] [= <-]; reflexivity.
Defined.

(** C3, as the code has it.  When the include chain of a document is finite
    and each of its files is there and holds a mapping, the call returns
    with enough fuel.  The document returned has no [include] key at its top
    level.  Every binding it has is, with its value as it was, a binding of
    the document given or of a file of the chain, so an [include] key inside
    a value is left where it is.  It has every key other than [include] of
    every file of the chain; and a key other than [include] that the
    document or a file has, and for which they all have the same value,
    holds that value. *)
Theorem resolved_keys : forall fs d base,
  loadable fs d base ->
  exists fuel0 tr r,
    (forall fuel, fuel0 <= fuel -> parse_includes fs fuel d base = (tr, Ok r)) /\
    ~ In "include" (keys_of r) /\
    (forall path doc k,
       included_file fs d base path doc ->
       In k (keys_of doc) -> k <> "include" -> In k (keys_of r)) /\
    (forall k v, In (k, v) (items_of r) ->
       In (k, v) (items_of d) \/
       exists path doc,
         included_file fs d base path doc /\ In (k, v) (items_of doc)) /\
    (forall k v, k <> "include" ->
       (In k (keys_of d) \/
        exists path doc, included_file fs d base path doc /\ In k (keys_of doc)) ->
       (forall v', In (k, v') (items_of d) -> v' = v) ->
       (forall path doc v',
          included_file fs d base path doc -> In (k, v') (items_of doc) -> v' = v) ->
       In (k, v) (items_of r)).
Proof.
  intros fs d base H.
  destruct (loadable_returns H) as (fuel0 & tr & r & Hp).
  assert (Hkeys : forall path doc k,
            included_file fs d base path doc ->
            In k (keys_of doc) -> k <> "include" -> In k (keys_of r)).
  { intros path doc k Hinc Hk Hne.
    destruct (included_file_resolved Hinc fuel0 Hp) as (_ & _ & Hkeys).
    apply Hkeys; assumption. }
  exists fuel0, tr, r. split; [| split; [| split; [| split]]].
  - intros fuel Hle. eapply parse_includes_fuel; eassumption.
  - eapply parse_includes_top_level; eassumption.
  - exact Hkeys.
  - intros k v Hin. eapply parse_includes_binding; eassumption.
  - intros k v Hne Hsome Hd Hfiles.
    assert (Hk : In k (keys_of r)).
    { destruct Hsome as [Hk | (path & doc & Hinc & Hk)].
      - eapply parse_includes_keeps_keys; eassumption.
      - eapply Hkeys; eassumption. }
    rewrite keys_of_items in Hk. unfold dict_keys in Hk.
    apply in_map_iff in Hk. destruct Hk as ([k' v'] & Hfst & Hin).
    simpl in Hfst. subst k'.
    destruct (parse_includes_binding fs _ _ _ Hp k v' Hin)
      as [Hb | (path & doc & Hinc & Hb)].
    + rewrite <- (Hd v' Hb). exact Hin.
    + rewrite <- (Hfiles path doc v' Hinc Hb). exact Hin.
Qed.

Lemma chain_root_loadable :
  loadable chain_fs chain_root (dirname "/a/.gitlab-ci.yml").
Proof.
  eapply loadable_include; [reflexivity|]. simpl.
  eapply entries_local with (rel := "sub/b.yml"); [reflexivity | reflexivity | | constructor].
  eapply loadable_include; [reflexivity|]. simpl.
  eapply entries_local with (rel := "c.yml"); [reflexivity | reflexivity | | constructor].
  apply loadable_plain. intros m [= <-]. reflexivity.
Qed.

Lemma resolved_keys_witness :
  exists fuel0 tr r,
    (forall fuel, fuel0 <= fuel ->
       parse_includes chain_fs fuel chain_root "/a" = (tr, Ok r)) /\
    ~ In "include" (keys_of r) /\
    (forall path doc k,
       included_file chain_fs chain_root "/a" path doc ->
       In k (keys_of doc) -> k <> "include" -> In k (keys_of r)) /\
    (forall k v, In (k, v) (items_of r) ->
       In (k, v) (items_of chain_root) \/
       exists path doc,
         included_file chain_fs chain_root "/a" path doc /\
         In (k, v) (items_of doc)) /\
    (forall k v, k <> "include" ->
       (In k (keys_of chain_root) \/
        exists path doc,
          included_file chain_fs chain_root "/a" path doc /\ In k (keys_of doc)) ->
       (forall v', In (k, v') (items_of chain_root) -> v' = v) ->
       (forall path doc v',
          included_file chain_fs chain_root "/a" path doc ->
          In (k, v') (items_of doc) -> v' = v) ->
       In (k, v) (items_of r)).
Proof. exact (resolved_keys chain_root_loadable). Defined.

(** C3 as stated fails: an [include] key below the top level stays. *)
Lemma include_key_below_top_level_stays :
  loadable chain_fs chain_root "/a" /\
  exists tr r,
    parse_includes chain_fs 2 chain_root "/a" = (tr, Ok r) /\
    key_anywhere "include" r = true.
Proof.
  split; [exact chain_root_loadable|].
  eexists; eexists. split; [vm_compute; reflexivity | reflexivity].
Qed.

(** C6.  When the include chain is loadable, the files opened are the local
    paths of the document joined to its base directory and, for each file of
    the chain, its local paths joined to the directory of that file, and no
    others. *)
Theorem include_paths_relative_to_includer : forall fs d base,
  loadable fs d base ->
  exists fuel0 tr r,
    (forall fuel, fuel0 <= fuel -> parse_includes fs fuel d base = (tr, Ok r)) /\
    (forall p, In p tr <->
       (exists rel, local_entry d rel /\ p = join base rel) \/
       (exists path doc rel,
           included_file fs d base path doc /\ local_entry doc rel /\
           p = join (dirname path) rel)).
Proof.
  intros fs d base H.
  destruct (loadable_returns H) as (fuel0 & tr & r & Hp).
  exists fuel0, tr, r. split.
  - intros fuel Hle. eapply parse_includes_fuel; eassumption.
  - intro p. split.
    + intro Hin. eapply opened_is_include_path; eassumption.
    + intros [(rel & Hloc & ->) | (path & doc & rel & Hinc & Hloc & ->)].
      * destruct (@local_entry_resolved fs fuel0 d base tr r rel Hp Hloc)
          as (_ & _ & _ & _ & _ & _ & Hopen & _).
        exact Hopen.
      * destruct (included_file_resolved Hinc fuel0 Hp) as (_ & Hloc' & _).
        apply Hloc'. exact Hloc.
Qed.

Lemma include_paths_relative_to_includer_witness :
  exists fuel0 tr r,
    (forall fuel, fuel0 <= fuel ->
       parse_includes chain_fs fuel chain_root "/a" = (tr, Ok r)) /\
    (forall p, In p tr <->
       (exists rel, local_entry chain_root rel /\ p = join "/a" rel) \/
       (exists path doc rel,
           included_file chain_fs chain_root "/a" path doc /\
           local_entry doc rel /\ p = join (dirname path) rel)).
Proof. exact (include_paths_relative_to_includer chain_root_loadable). Defined.

(** The scenario of the specification: [c.yml] is taken from [/a/sub]. *)
Example nested_include_opened :
  dirname "/a/.gitlab-ci.yml" = "/a" /\
  fst (parse_includes chain_fs 2 chain_root "/a") = ["/a/sub/b.yml"; "/a/sub/c.yml"] /\
  ~ In "/a/c.yml" (fst (parse_includes chain_fs 2 chain_root "/a")).
Proof.
  split; [reflexivity | split; [reflexivity|]].
  vm_compute. intros [H | [H | []]]; discriminate.
Qed.

(* ------------------------------------------------------------------ *)
(** ** Steps of [build_graph]: a small program logic *)

Lemma triple_ret : forall A (a : A) (P : frame -> Prop) R,
  triple P (ret a) (fun _ s => P s) R.
Proof. intros A a P R s H. exact H. Qed.

Lemma triple_bind : forall A B (c : St A) (f : A -> St B) P Q Q' R,
  triple P c Q R ->
  (forall a, triple (Q a) (f a) Q' R) ->
  triple P (bind c f) Q' R.
Proof.
  intros A B c f P Q Q' R Hc Hf s Hs. unfold bind.
  specialize (Hc s Hs). destruct (c s) as [[a | e |] s']; try exact Hc.
  exact (Hf a s' Hc).
Qed.

Lemma triple_weaken : forall A (c : St A) (P P' : frame -> Prop) Q Q' R,
  (forall s, P' s -> P s) ->
  (forall a s, Q a s -> Q' a s) ->
  triple P c Q R -> triple P' c Q' R.
Proof.
  intros A c P P' Q Q' R HP HQ H s Hs. specialize (H s (HP s Hs)).
  destruct (c s) as [[a | e |] s']; auto.
Qed.

(** The loop rule: the invariant is indexed by the elements done. *)
Lemma triple_for_each : forall A (body : A -> St unit)
    (I : list A -> frame -> Prop) R (l : list A),
  (forall done x rest, l = done ++ x :: rest ->
     triple (I done) (body x) (fun _ => I (done ++ [x])) R) ->
  triple (I []) (for_each l body) (fun _ => I l) R.
Proof.
  intros A body I R l H.
  assert (G : forall rest done, l = done ++ rest ->
            triple (I done) (for_each rest body) (fun _ => I l) R).
  { induction rest as [|x rest IH]; intros done Hl.
    - rewrite app_nil_r in Hl. rewrite Hl. intros s Hs. exact Hs.
    - simpl. eapply triple_bind.
      + apply (H done x rest Hl).
      + intros ?. apply IH. rewrite <- app_assoc. exact Hl. }
  apply (G l []). reflexivity.
Qed.

Lemma keeps_data_bind : forall A B (c : St A) (f : A -> St B),
  keeps_data c -> (forall a, keeps_data (f a)) -> keeps_data (bind c f).
Proof.
  intros A B c f Hc Hf s. unfold bind. specialize (Hc s).
  destruct (c s) as [[a | e |] s']; simpl in *; try exact Hc.
  rewrite Hf. exact Hc.
Qed.

Lemma keeps_data_on_graph : forall f, keeps_data (on_graph f).
Proof.
  intros f s. unfold on_graph. destruct (f (graph s)); reflexivity.
Qed.

Lemma keeps_data_for_each : forall A (body : A -> St unit) l,
  (forall x, keeps_data (body x)) -> keeps_data (for_each l body).
Proof.
  intros A body l H. induction l as [|x l IH]; simpl.
  - intro s. reflexivity.
  - apply keeps_data_bind; [apply H | intros ?; exact IH].
Qed.

Lemma keeps_data_add_job_node : forall job_name, keeps_data (add_job_node job_name).
Proof.
  intro job_name. unfold add_job_node.
  destruct (startswith "."%char job_name); apply keeps_data_on_graph.
Qed.

Lemma keeps_data_add_parent : forall job_name parent,
  keeps_data (add_parent job_name parent).
Proof.
  intros job_name parent. unfold add_parent.
  apply keeps_data_bind; [intro s; reflexivity|]. intro g.
  apply keeps_data_bind; [| intros ?; apply keeps_data_on_graph].
  destruct (negb (has_node g parent)); [apply keeps_data_on_graph | intro s; reflexivity].
Qed.

Lemma add_extends_parents : forall job_name job_config,
  add_extends (job_name, job_config) =
  for_each (parents_of job_config) (add_parent job_name).
Proof.
  intros job_name job_config. unfold add_extends, parents_of.
  destruct job_config as [| | | | | config]; try reflexivity.
  destruct (dict_get "extends" config) as [[| | | | |]|]; reflexivity.
Qed.

Lemma keeps_data_add_extends : forall item, keeps_data (add_extends item).
Proof.
  intros [job_name job_config]. rewrite add_extends_parents.
  apply keeps_data_for_each. intro parent. apply keeps_data_add_parent.
Qed.

Lemma keeps_data_build_graph_steps : keeps_data build_graph_steps.
Proof.
  unfold build_graph_steps.
  apply keeps_data_bind; [intros ?; reflexivity|]. intro d.
  destruct d; try (intros ?; reflexivity).
  apply keeps_data_bind.
  - apply keeps_data_for_each. apply keeps_data_add_job_node.
  - intros ?. apply keeps_data_bind; [intros ?; reflexivity|]. intro d'.
    destruct d'; try (intros ?; reflexivity).
    apply keeps_data_for_each. apply keeps_data_add_extends.
Qed.

(** C10.  [build_graph] leaves the document as it was, whether it returns a
    graph or raises. *)
Theorem build_graph_keeps_document : forall d : yaml,
  data_after_build_graph d = d.
Proof.
  intro d. unfold data_after_build_graph.
  apply (keeps_data_build_graph_steps (mkFrame d empty_graph)).
Qed.

(* ------------------------------------------------------------------ *)
(** ** The graph while it is built *)

Lemma hkey_eqb_eq : forall a b, hkey_eqb a b = true <-> a = b.
Proof.
  intros [| x | x] [| y | y]; simpl; split; intro H;
    try discriminate; try reflexivity.
  - apply Z.eqb_eq in H. congruence.
  - injection H as ->. apply Z.eqb_refl.
  - apply String.eqb_eq in H. congruence.
  - injection H as ->. apply String.eqb_refl.
Qed.

Lemma edge_eqb_eq : forall e f, edge_eqb e f = true <-> e = f.
Proof.
  intros [a b] [c d]. unfold edge_eqb. simpl.
  rewrite andb_true_iff, !hkey_eqb_eq. split.
  - intros [-> ->]. reflexivity.
  - intros [= -> ->]. auto.
Qed.

Lemma add_job_node_step : forall job_name s,
  add_job_node job_name s =
  (Ok tt,
   mkFrame (data s)
     (mkDiGraph
        (Assoc.set hkey_eqb (HStr job_name)
           (match Assoc.get hkey_eqb (HStr job_name) (nodes (graph s)) with
            | Some old => dict_update old (attrs_for job_name)
            | None => attrs_for job_name
            end) (nodes (graph s)))
        (edges (graph s)))).
Proof.
  intros job_name s. unfold add_job_node, attrs_for.
  destruct (Assoc.get hkey_eqb (HStr job_name) (nodes (graph s))) eqn:E;
    destruct (startswith "."%char job_name);
    unfold on_graph, add_node;
    change (hash_key (YStr job_name)) with (Some (HStr job_name));
    cbv iota; rewrite E; reflexivity.
Qed.

Lemma ensure_node_present : forall g n k,
  hash_key n = Some k -> Assoc.mem hkey_eqb k (nodes g) = true ->
  ensure_node g n = Ok g.
Proof. intros g n k Hk Hmem. unfold ensure_node. rewrite Hk, Hmem. reflexivity. Qed.

Lemma add_edge_present : forall g u v ku kv attr,
  hash_key u = Some ku -> hash_key v = Some kv ->
  Assoc.mem hkey_eqb ku (nodes g) = true ->
  Assoc.mem hkey_eqb kv (nodes g) = true ->
  add_edge g u v attr =
  Ok (mkDiGraph (nodes g)
        (Assoc.set edge_eqb (ku, kv)
           (dict_update
              (match Assoc.get edge_eqb (ku, kv) (edges g) with
               | Some d => d
               | None => []
               end) attr)
           (edges g))).
Proof.
  intros g u v ku kv attr Hu Hv Hmu Hmv. unfold add_edge.
  rewrite (ensure_node_present g u Hu Hmu), (ensure_node_present g v Hv Hmv).
  rewrite Hu, Hv. reflexivity.
Qed.

Lemma add_node_new : forall g n k attr,
  hash_key n = Some k -> k <> HNone ->
  Assoc.mem hkey_eqb k (nodes g) = false ->
  add_node g n attr = Ok (mkDiGraph (Assoc.set hkey_eqb k attr (nodes g)) (edges g)).
Proof.
  intros g n k attr Hk Hne Hmem. unfold add_node. rewrite Hk.
  unfold Assoc.mem in Hmem.
  destruct (Assoc.get hkey_eqb k (nodes g)); [discriminate|].
  destruct k; [congruence | reflexivity | reflexivity].
Qed.

Lemma on_graph_ok : forall f s g,
  f (graph s) = Ok g -> on_graph f s = (Ok tt, mkFrame (data s) g).
Proof. intros f s g H. unfold on_graph. rewrite H. reflexivity. Qed.

Lemma add_parent_step : forall job_name parent k s,
  hash_key parent = Some k ->
  Assoc.mem hkey_eqb (HStr job_name) (nodes (graph s)) = true ->
  k <> HNone \/ Assoc.mem hkey_eqb k (nodes (graph s)) = true ->
  add_parent job_name parent s =
  (Ok tt, mkFrame (data s) (link k parent job_name (graph s))).
Proof.
  intros job_name parent k s Hk Hjob Hcase.
  unfold add_parent, bind, read_graph, has_node, link. rewrite Hk.
  destruct (Assoc.mem hkey_eqb k (nodes (graph s))) eqn:Hmem; cbn [negb].
  - unfold ret.
    apply on_graph_ok. apply add_edge_present; auto.
  - destruct Hcase as [Hne | ?]; [| discriminate].
    rewrite (on_graph_ok (fun g => add_node g parent (hidden_attr parent)) s
               (add_node_new (graph s) parent (hidden_attr parent) Hk Hne Hmem)).
    unfold on_graph. cbn [graph data].
    rewrite (@add_edge_present _ parent (YStr job_name) k (HStr job_name)
               extends_label Hk eq_refl).
    + reflexivity.
    + simpl. apply (mem_set_same hkey_eqb_eq).
    + simpl. apply (mem_set hkey_eqb_eq). exact Hjob.
Qed.

Lemma add_parent_unhashable : forall job_name parent s,
  hash_key parent = None ->
  add_parent job_name parent s = (Raise TypeError, s).
Proof.
  intros job_name parent s Hk.
  unfold add_parent, bind, read_graph, has_node, on_graph, add_node.
  rewrite Hk. reflexivity.
Qed.

Lemma add_parent_none : forall job_name parent s,
  hash_key parent = Some HNone ->
  Assoc.mem hkey_eqb HNone (nodes (graph s)) = false ->
  add_parent job_name parent s = (Raise ValueError, s).
Proof.
  intros job_name parent s Hk Hmem.
  unfold add_parent, bind, read_graph, has_node.
  rewrite Hk, Hmem. cbn [negb]. unfold on_graph at 1. unfold add_node. rewrite Hk.
  unfold Assoc.mem in Hmem.
  destruct (Assoc.get hkey_eqb HNone (nodes (graph s))); [discriminate | reflexivity].
Qed.

Lemma attrs_for_again : forall name,
  dict_update (attrs_for name) (attrs_for name) = attrs_for name.
Proof.
  intro name. unfold attrs_for. destruct (startswith "."%char name); reflexivity.
Qed.

Section GraphSteps.
Variable m : dict.

Lemma first_pass_inv : forall g name,
  graph_inv m g -> In name (dict_keys m) ->
  graph_inv m
    (mkDiGraph
       (Assoc.set hkey_eqb (HStr name)
          (match Assoc.get hkey_eqb (HStr name) (nodes g) with
           | Some old => dict_update old (attrs_for name)
           | None => attrs_for name
           end) (nodes g))
       (edges g)).
Proof.
  intros g name (Hn & He & Hok & Hlab) Hin.
  split; [| split; [| split]]; simpl.
  - apply (NoDup_set hkey_eqb_eq). exact Hn.
  - exact He.
  - intros k a. rewrite (get_set hkey_eqb_eq).
    destruct (hkey_eqb (HStr name) k) eqn:E; [| apply Hok].
    apply hkey_eqb_eq in E. subst k. intros [= <-].
    left. exists name. repeat split; auto.
    destruct (Assoc.get hkey_eqb (HStr name) (nodes g)) as [old|] eqn:G;
      [| reflexivity].
    destruct (Hok _ _ G) as [(name' & [= <-] & _ & ->) | (Hnot & _)].
    + apply attrs_for_again.
    + exfalso. exact (Hnot name eq_refl Hin).
  - exact Hlab.
Qed.

Lemma link_inv : forall g k parent job_name,
  graph_inv m g -> keys_in m g -> hash_key parent = Some k ->
  graph_inv m (link k parent job_name g).
Proof.
  intros g k parent job_name (Hn & He & Hok & Hlab) Hkeys Hk.
  split; [| split; [| split]]; simpl.
  - destruct (Assoc.mem hkey_eqb k (nodes g)); [exact Hn|].
    apply (NoDup_set hkey_eqb_eq). exact Hn.
  - apply (NoDup_set edge_eqb_eq). exact He.
  - destruct (Assoc.mem hkey_eqb k (nodes g)) eqn:Hmem; [exact Hok|].
    intros k' a. rewrite (get_set hkey_eqb_eq).
    destruct (hkey_eqb k k') eqn:E; [| apply Hok].
    apply hkey_eqb_eq in E. subst k'. intros [= <-].
    right. split; [| exists parent; auto].
    intros name -> Hin. rewrite (Hkeys name Hin) in Hmem. discriminate.
  - intros e a. rewrite (get_set edge_eqb_eq).
    destruct (edge_eqb (k, HStr job_name) e); [| apply Hlab].
    intros [= <-].
    destruct (Assoc.get edge_eqb (k, HStr job_name) (edges g)) as [old|] eqn:G;
      [| reflexivity].
    rewrite (Hlab _ _ G). reflexivity.
Qed.

Lemma link_keys_in : forall g k parent job_name,
  keys_in m g -> keys_in m (link k parent job_name g).
Proof.
  intros g k parent job_name Hkeys name Hin. simpl.
  destruct (Assoc.mem hkey_eqb k (nodes g)); [auto|].
  apply (mem_set hkey_eqb_eq). auto.
Qed.

Lemma link_new : forall g k parent job_name,
  graph_inv m g -> hash_key parent = Some k ->
  linked (link k parent job_name g) job_name parent.
Proof.
  intros g k parent job_name (_ & _ & _ & Hlab) Hk. exists k.
  split; [exact Hk | split]; simpl.
  - destruct (Assoc.mem hkey_eqb k (nodes g)) eqn:Hmem; [exact Hmem|].
    apply (mem_set_same hkey_eqb_eq).
  - rewrite (get_set_same edge_eqb_eq).
    destruct (Assoc.get edge_eqb (k, HStr job_name) (edges g)) as [old|] eqn:G;
      [| reflexivity].
    rewrite (Hlab _ _ G). reflexivity.
Qed.

Lemma link_stable : forall g k parent job_name job_name' parent',
  graph_inv m g ->
  linked g job_name' parent' ->
  linked (link k parent job_name g) job_name' parent'.
Proof.
  intros g k parent job_name job_name' parent' (_ & _ & _ & Hlab)
    (k' & Hk' & Hmem' & Hedge).
  exists k'. split; [exact Hk' | split]; simpl.
  - destruct (Assoc.mem hkey_eqb k (nodes g)); [exact Hmem'|].
    apply (mem_set hkey_eqb_eq). exact Hmem'.
  - rewrite (get_set edge_eqb_eq).
    destruct (edge_eqb (k, HStr job_name) (k', HStr job_name')) eqn:E;
      [| exact Hedge].
    apply edge_eqb_eq in E. injection E as -> ->.
    rewrite Hedge. reflexivity.
Qed.

Lemma add_parent_triple : forall done job_name job_config parent,
  In (job_name, job_config) m ->
  In parent (parents_of job_config) ->
  triple (second_pass_inv m done) (add_parent job_name parent)
    (fun _ => second_pass_inv m (done ++ [(job_name, parent)]))
    (fun _ => ~ parents_valid m).
Proof.
  intros done job_name job_config parent Hitem Hparent s (Hd & Hinv & Hkeys & Hdone).
  assert (Hjob : Assoc.mem hkey_eqb (HStr job_name) (nodes (graph s)) = true).
  { apply Hkeys. apply (in_map fst) in Hitem. exact Hitem. }
  assert (Hgood : forall k, hash_key parent = Some k ->
            k <> HNone \/ Assoc.mem hkey_eqb k (nodes (graph s)) = true ->
            match add_parent job_name parent s with
            | (Ok _, s') => second_pass_inv m (done ++ [(job_name, parent)]) s'
            | (_, _) => ~ parents_valid m
            end).
  { intros k Hk Hcase. rewrite (add_parent_step job_name parent s Hk Hjob Hcase).
    split; [exact Hd | split; [| split]]; simpl.
    - apply link_inv; assumption.
    - apply link_keys_in; assumption.
    - intros c p Hin. apply in_app_or in Hin. destruct Hin as [Hin | [[= <- <-] | []]].
      + apply link_stable; auto.
      + apply link_new; assumption. }
  assert (Hbad : (forall k, hash_key parent = Some k -> k = HNone) -> ~ parents_valid m).
  { intros Hno Hvalid.
    destruct (Hvalid _ _ _ Hitem Hparent) as (k & Hk & Hne). auto. }
  destruct (hash_key parent) as [k|] eqn:Hk.
  - destruct k as [| z | str].
    + destruct (Assoc.mem hkey_eqb HNone (nodes (graph s))) eqn:Hmem.
      * apply (Hgood HNone eq_refl). right. exact Hmem.
      * rewrite (add_parent_none job_name parent s Hk Hmem).
        apply Hbad. intros k' [= <-]. reflexivity.
    + apply (Hgood (HNum z) eq_refl). left. discriminate.
    + apply (Hgood (HStr str) eq_refl). left. discriminate.
  - rewrite (add_parent_unhashable job_name parent s Hk).
    apply Hbad. intros k' [=].
Qed.
End GraphSteps.

Lemma references_In : forall items job_name parent,
  In (job_name, parent) (references items) <->
  exists job_config, In (job_name, job_config) items /\
    In parent (parents_of job_config).
Proof.
  intros items job_name parent. unfold references. rewrite in_flat_map. split.
  - intros ([c cfg] & Hin & Hp). simpl in Hp. apply in_map_iff in Hp.
    destruct Hp as (p & [= <- <-] & Hp). exists cfg. auto.
  - intros (cfg & Hin & Hp). exists (job_name, cfg). split; [exact Hin|].
    simpl. apply in_map. exact Hp.
Qed.

Lemma references_app : forall l1 l2,
  references (l1 ++ l2) = references l1 ++ references l2.
Proof. intros l1 l2. unfold references. apply flat_map_app. Qed.

Lemma triple_read_data : forall (P : frame -> Prop) R,
  triple P read_data (fun d s => P s /\ d = data s) R.
Proof. intros P R s H. simpl. auto. Qed.

Section GraphRun.
Variable m : dict.

Lemma first_pass_triple : forall R,
  triple (first_pass_inv_at m []) (for_each (dict_keys m) add_job_node)
    (fun _ => first_pass_inv_at m (dict_keys m)) R.
Proof.
  intro R. apply triple_for_each. intros done name rest Hl s (Hd & Hinv & Hdone).
  rewrite add_job_node_step. split; [exact Hd | split]; simpl.
  - apply first_pass_inv; [exact Hinv|].
    rewrite Hl. apply in_or_app. right. left. reflexivity.
  - intros name' Hin. apply in_app_or in Hin. destruct Hin as [Hin | [<- | []]].
    + apply (mem_set hkey_eqb_eq). auto.
    + apply (mem_set_same hkey_eqb_eq).
Qed.

Lemma add_extends_triple : forall done item,
  In item m ->
  triple (second_pass_inv m (references done)) (add_extends item)
    (fun _ => second_pass_inv m (references (done ++ [item])))
    (fun _ => ~ parents_valid m).
Proof.
  intros done [job_name job_config] Hitem. rewrite add_extends_parents.
  apply triple_weaken with
    (P := second_pass_inv m (references done ++ map (pair job_name) []))
    (Q := fun _ : unit => second_pass_inv m
            (references done ++ map (pair job_name) (parents_of job_config))).
  - intros s H. simpl. rewrite app_nil_r. exact H.
  - intros u s H. rewrite references_app. unfold references at 2. simpl.
    rewrite app_nil_r. exact H.
  - apply triple_for_each with
      (I := fun pdone => second_pass_inv m
              (references done ++ map (pair job_name) pdone)).
    intros pdone parent rest Hl.
    eapply triple_weaken; [intros s H; exact H | |
      apply (@add_parent_triple m (references done ++ map (pair job_name) pdone)
               job_name job_config parent Hitem)].
    + intros u s H. rewrite map_app, app_assoc. exact H.
    + rewrite Hl. apply in_or_app. right. left. reflexivity.
Qed.

Lemma second_pass_triple :
  triple (second_pass_inv m []) (for_each m add_extends)
    (fun _ => second_pass_inv m (references m))
    (fun _ => ~ parents_valid m).
Proof.
  apply triple_for_each with (I := fun done => second_pass_inv m (references done)).
  intros done item rest Hl. apply add_extends_triple.
  rewrite Hl. apply in_or_app. right. left. reflexivity.
Qed.

Lemma build_graph_steps_triple :
  triple (fun s => s = mkFrame (YMap m) empty_graph) build_graph_steps
    (fun _ => second_pass_inv m (references m))
    (fun _ => ~ parents_valid m).
Proof.
  unfold build_graph_steps.
  eapply triple_bind; [apply triple_read_data|].
  intros d s (-> & ->). cbn [data].
  assert (T : triple (fun s => s = mkFrame (YMap m) empty_graph)
                (bind (for_each (dict_keys m) add_job_node)
                   (fun _ => bind read_data
                      (fun d' => match d' with
                                 | YMap m' => for_each m' add_extends
                                 | _ => raise AttributeError
                                 end)))
                (fun _ => second_pass_inv m (references m))
                (fun _ => ~ parents_valid m)).
  { eapply triple_bind.
    - eapply triple_weaken; [| intros a s H; exact H | apply first_pass_triple].
      intros s ->. split; [reflexivity | split].
      + repeat split; simpl; try constructor; intros; discriminate.
      + intros name [].
    - intros u. eapply triple_bind; [apply triple_read_data|].
      intros d' s ((Hd & Hinv & Hkeys) & ->). rewrite Hd.
      apply second_pass_triple.
      split; [exact Hd | split; [exact Hinv | split]].
      + exact Hkeys.
      + intros c p []. }
  exact (T _ eq_refl).
Qed.
End GraphRun.

(** The graph that [build_graph] returns. *)
Lemma build_graph_sound : forall m g,
  build_graph (YMap m) = Ok g ->
  graph_inv m g /\ keys_in m g /\
  forall job_name job_config parent,
    In (job_name, job_config) m -> In parent (parents_of job_config) ->
    linked g job_name parent.
Proof.
  intros m g H. unfold build_graph in H.
  pose proof (build_graph_steps_triple (m:=m) eq_refl) as T.
  destruct (build_graph_steps (mkFrame (YMap m) empty_graph)) as [[u | e |] s];
    try discriminate.
  injection H as <-. destruct T as (_ & Hinv & Hkeys & Hdone).
  split; [exact Hinv | split; [exact Hkeys|]].
  intros job_name job_config parent Hitem Hp. apply Hdone.
  apply references_In. exists job_config. auto.
Qed.

(** [build_graph] returns when every parent can be a node. *)
Lemma build_graph_returns : forall m,
  parents_valid m -> exists g, build_graph (YMap m) = Ok g.
Proof.
  intros m Hvalid. unfold build_graph.
  pose proof (build_graph_steps_triple (m:=m) eq_refl) as T.
  destruct (build_graph_steps (mkFrame (YMap m) empty_graph)) as [[u | e |] s].
  - eexists. reflexivity.
  - contradiction.
  - contradiction.
Qed.

Lemma attrs_for_type : forall name,
  dict_get "type" (attrs_for name) =
  Some (YStr (if startswith "."%char name then "hidden" else "job")).
Proof.
  intro name. unfold attrs_for. destruct (startswith "."%char name); reflexivity.
Qed.

Lemma node_ok_type : forall m g k,
  graph_inv m g -> In k (map fst (nodes g)) ->
  (forall name, k = HStr name -> In name (dict_keys m) ->
     node_type g k =
     Some (YStr (if startswith "."%char name then "hidden" else "job"))) /\
  ((forall name, k = HStr name -> ~ In name (dict_keys m)) ->
     node_type g k = Some (YStr "hidden")).
Proof.
  intros m g k (_ & _ & Hok & _) Hin.
  apply (mem_In hkey_eqb_eq) in Hin. unfold Assoc.mem in Hin. unfold node_type.
  destruct (Assoc.get hkey_eqb k (nodes g)) as [a|] eqn:G; [| discriminate].
  destruct (Hok _ _ G) as [(name & -> & Hkey & ->) | (Hnot & n & _ & ->)]; split.
  - intros name' [= <-] _. apply attrs_for_type.
  - intros Hnot. exfalso. exact (Hnot name eq_refl Hkey).
  - intros name -> Hkey. exfalso. exact (Hnot name eq_refl Hkey).
  - intros _. reflexivity.
Qed.

(* ------------------------------------------------------------------ *)
(** ** Claims on the graph *)

(** C1, as the code has it.  In the graph of a document, the node of a key of
    the document is [hidden] when the key starts with a dot and [job] when it
    does not; a node that is not a key of the document, made for the target
    of an [extends], is [hidden] whatever its first character. *)
Theorem node_classification : forall m g k,
  build_graph (YMap m) = Ok g ->
  In k (map fst (nodes g)) ->
  (forall name, k = HStr name -> In name (dict_keys m) ->
     node_type g k =
     Some (YStr (if startswith "."%char name then "hidden" else "job"))) /\
  ((forall name, k = HStr name -> ~ In name (dict_keys m)) ->
     node_type g k = Some (YStr "hidden")).
Proof.
  intros m g k H Hin. apply build_graph_sound in H. destruct H as (Hinv & _).
  apply node_ok_type; assumption.
Qed.

Lemma node_classification_witness :
  (forall name, HStr "base" = HStr name -> In name (dict_keys one_job) ->
     node_type one_job_graph (HStr "base") =
     Some (YStr (if startswith "."%char name then "hidden" else "job"))) /\
  ((forall name, HStr "base" = HStr name -> ~ In name (dict_keys one_job)) ->
     node_type one_job_graph (HStr "base") = Some (YStr "hidden")).
Proof.
  apply (@node_classification one_job one_job_graph (HStr "base")).
  - reflexivity.
  - simpl. auto.
Defined.

(** C1 as stated fails: a target of [extends] that is not a key is [hidden]
    though its name does not start with a dot. *)
Lemma extends_target_hidden_without_dot :
  build_graph (YMap one_job) = Ok one_job_graph /\
  node_type one_job_graph (HStr "base") = Some (YStr "hidden") /\
  startswith "."%char "base" = false.
Proof. repeat split. Qed.

(** The parents of a resolved document are strings, which can be nodes. *)
Lemma string_parents_valid : forall m,
  (forall job_name job_config parent,
     In (job_name, job_config) m -> In parent (parents_of job_config) ->
     exists s, parent = YStr s) ->
  parents_valid m.
Proof.
  intros m H job_name job_config parent Hitem Hp.
  destruct (H _ _ _ Hitem Hp) as (s & ->).
  exists (HStr s). split; [reflexivity | discriminate].
Qed.

(** C5.  When every parent named by an [extends] can be a node, the graph
    is built, each such parent is a node of it exactly once, and the node of
    a parent that is not a key of the document is [hidden]. *)
Theorem extends_targets_are_nodes : forall m,
  parents_valid m ->
  exists g, build_graph (YMap m) = Ok g /\
    forall job_name job_config parent,
      In (job_name, job_config) m -> In parent (parents_of job_config) ->
      exists k, hash_key parent = Some k /\
        count_occ hkey_eq_dec (map fst (nodes g)) k = 1 /\
        ((forall name, k = HStr name -> ~ In name (dict_keys m)) ->
           node_type g k = Some (YStr "hidden")).
Proof.
  intros m Hvalid. destruct (build_graph_returns Hvalid) as (g & Hg).
  exists g. split; [exact Hg|].
  destruct (build_graph_sound _ Hg) as (Hinv & _ & Hlinked).
  intros job_name job_config parent Hitem Hp.
  destruct (Hlinked _ _ _ Hitem Hp) as (k & Hk & Hmem & _).
  apply (mem_In hkey_eqb_eq) in Hmem.
  exists k. split; [exact Hk | split].
  - destruct Hinv as (Hnd & _). apply NoDup_count_occ'; assumption.
  - apply (@node_ok_type m g k Hinv Hmem).
Qed.

(** C7.  When every parent named by an [extends] can be a node, the graph
    is built, and for a job whose [extends] is a list it has, for each
    parent of the list, the edge from the parent to the job, once however
    often the list names the parent, with the label [extends]. *)
Theorem extends_edges : forall m job_name config parents,
  parents_valid m ->
  In (job_name, YMap config) m ->
  dict_get "extends" config = Some (YSeq parents) ->
  exists g, build_graph (YMap m) = Ok g /\
    forall parent, In parent parents ->
      exists k, hash_key parent = Some k /\
        count_occ edge_eq_dec (map fst (edges g)) (k, HStr job_name) = 1 /\
        Assoc.get edge_eqb (k, HStr job_name) (edges g) =
          Some [("label", YStr "extends")].
Proof.
  intros m job_name config parents Hvalid Hitem Hext.
  destruct (build_graph_returns Hvalid) as (g & Hg).
  exists g. split; [exact Hg|].
  destruct (build_graph_sound _ Hg) as ((_ & Hnd & _) & _ & Hlinked).
  intros parent Hp.
  assert (Hp' : In parent (parents_of (YMap config))).
  { simpl. rewrite Hext. exact Hp. }
  destruct (Hlinked _ _ _ Hitem Hp') as (k & Hk & _ & Hedge).
  exists k. split; [exact Hk | split; [| exact Hedge]].
  apply NoDup_count_occ'; [exact Hnd|].
  apply (get_In edge_eqb_eq) in Hedge. apply (in_map fst) in Hedge. exact Hedge.
Qed.

Lemma fan_in_valid : parents_valid fan_in.
Proof.
  intros job_name job_config parent Hitem Hp. simpl in Hitem.
  repeat (destruct Hitem as [Hitem | Hitem];
          [injection Hitem as <- <-; simpl in Hp;
           repeat (destruct Hp as [<- | Hp];
                   [eexists; split; [reflexivity | discriminate]|]);
           destruct Hp|]).
  destruct Hitem.
Qed.

Lemma extends_targets_are_nodes_witness :
  exists g, build_graph (YMap fan_in) = Ok g /\
    forall job_name job_config parent,
      In (job_name, job_config) fan_in -> In parent (parents_of job_config) ->
      exists k, hash_key parent = Some k /\
        count_occ hkey_eq_dec (map fst (nodes g)) k = 1 /\
        ((forall name, k = HStr name -> ~ In name (dict_keys fan_in)) ->
           node_type g k = Some (YStr "hidden")).
Proof. exact (extends_targets_are_nodes fan_in_valid). Defined.

Lemma extends_edges_witness :
  exists g, build_graph (YMap fan_in) = Ok g /\
    forall parent, In parent [YStr "a"; YStr ".b"; YStr "a"] ->
      exists k, hash_key parent = Some k /\
        count_occ edge_eq_dec (map fst (edges g)) (k, HStr "c") = 1 /\
        Assoc.get edge_eqb (k, HStr "c") (edges g) =
          Some [("label", YStr "extends")].
Proof.
  apply (@extends_edges fan_in "c"
           [("extends", YSeq [YStr "a"; YStr ".b"; YStr "a"])]
           [YStr "a"; YStr ".b"; YStr "a"]).
  - exact fan_in_valid.
  - left. reflexivity.
  - reflexivity.
Defined.

(** The first scenario of the specification: two nodes and one edge. *)
Example build_graph_test_extends_base :
  build_graph (YMap [("test", YMap [("extends", YStr ".base")])]) =
  Ok (mkDiGraph
        [(HStr "test", job_attr (YStr "test"));
         (HStr ".base", hidden_attr (YStr ".base"))]
        [((HStr ".base", HStr "test"), [("label", YStr "extends")])]).
Proof. reflexivity. Qed.

(** The second scenario: the included definition of [build] replaces the
    local one, and the graph has the edge from [.setup] to [build]. *)
Example include_then_graph :
  exists tr r g,
    parse_includes merge_fs 1 (YMap merge_root) "." = (tr, Ok (YMap r)) /\
    dict_get "build" r = Some (YMap [("extends", YStr ".setup")]) /\
    build_graph (YMap r) = Ok g /\
    Assoc.get edge_eqb (HStr ".setup", HStr "build") (edges g) =
      Some [("label", YStr "extends")].
Proof.
  eexists; eexists; eexists.
  split; [vm_compute; reflexivity | split; [reflexivity | split; reflexivity]].
Qed.

Lemma for_includes_all_skipped : forall fs rec base includes m,
  (forall include, In include includes -> local_path include = None) ->
  for_includes fs rec base includes m = ([], Ok m).
Proof.
  intros fs rec base includes m H. apply run_for_includes.
  induction includes as [|include rest IH]; [constructor|].
  apply run_skip; [apply H; left; reflexivity|].
  apply IH. intros i Hi. apply H. right. exact Hi.
Qed.

Lemma first_pass_run : forall l s,
  exists g, for_each l add_job_node s = (Ok tt, mkFrame (data s) g) /\
    edges g = edges (graph s).
Proof.
  induction l as [|name l IH]; intro s; simpl.
  - exists (graph s). destruct s. auto.
  - unfold bind. rewrite add_job_node_step.
    match goal with |- context [for_each l add_job_node ?s1] =>
      destruct (IH s1) as (g & Hg & He) end.
    exists g. rewrite Hg. auto.
Qed.

Lemma second_pass_nothing : forall l s,
  (forall item, In item l -> parents_of (snd item) = []) ->
  for_each l add_extends s = (Ok tt, s).
Proof.
  induction l as [|[job_name job_config] l IH]; intros s H; cbn [for_each];
    [reflexivity|].
  unfold bind. rewrite add_extends_parents.
  assert (Hno : parents_of job_config = [])
    by (apply (H (job_name, job_config)); left; reflexivity).
  rewrite Hno. cbn [for_each ret].
  apply IH. intros item Hi. apply H. right. exact Hi.
Qed.

(** C4, as the code has it.  An entry of [include] that is not a mapping
    with a [local] key is skipped: when all entries are such, the call
    returns the document without its [include] key and opens no file.  An
    [extends] that is neither a string nor a list is skipped: when all are
    such, the graph is built, without edges.  Nothing is raised. *)
Theorem malformed_directives_skipped :
  (forall fs fuel m base includes,
     dict_get "include" m = Some includes ->
     (forall include, In include (as_list includes) -> local_path include = None) ->
     parse_includes fs (S fuel) (YMap m) base =
       ([], Ok (YMap (dict_del "include" m)))) /\
  (forall m,
     (forall job_name config v,
        In (job_name, YMap config) m -> dict_get "extends" config = Some v ->
        (forall s, v <> YStr s) /\ (forall l, v <> YSeq l)) ->
     exists g, build_graph (YMap m) = Ok g /\ edges g = []).
Proof.
  split.
  - intros fs fuel m base includes Hi Hskip.
    rewrite (parse_includes_unfold fs fuel m base Hi).
    rewrite (for_includes_all_skipped fs _ base _ m Hskip). reflexivity.
  - intros m H.
    assert (Hno : forall item, In item m -> parents_of (snd item) = []).
    { intros [job_name job_config] Hin. simpl. unfold parents_of.
      destruct job_config as [| | | | | config]; try reflexivity.
      destruct (dict_get "extends" config) as [v|] eqn:E; [| reflexivity].
      destruct (H _ _ _ Hin E) as (Hs & Hl).
      destruct v; try reflexivity.
      - exfalso. eapply Hs. reflexivity.
      - exfalso. eapply Hl. reflexivity. }
    unfold build_graph, build_graph_steps, bind at 1, read_data. cbn [data].
    unfold bind at 1.
    destruct (first_pass_run (dict_keys m) (mkFrame (YMap m) empty_graph))
      as (g & Hg & He).
    rewrite Hg. unfold bind, read_data. cbn [data].
    rewrite (second_pass_nothing m _ Hno). exists g. split; [reflexivity | exact He].
Qed.

Lemma malformed_directives_skipped_witness :
  parse_includes (fun _ => Missing) 1
    (YMap [("include", YSeq [YInt 5; YStr "t.yml"]); ("job", YNull)]) "." =
    ([], Ok (YMap [("job", YNull)])) /\
  exists g, build_graph (YMap [("job", YMap [("extends", YInt 5)])]) = Ok g /\
    edges g = [].
Proof.
  split.
  - apply (proj1 malformed_directives_skipped (fun _ => Missing) 0
             [("include", YSeq [YInt 5; YStr "t.yml"]); ("job", YNull)] "."
             (YSeq [YInt 5; YStr "t.yml"]) eq_refl).
    intros include [<- | [<- | []]]; reflexivity.
  - apply (proj2 malformed_directives_skipped).
    intros job_name config v [[= <- <-] | []] [= <-].
    split; intros; discriminate.
Defined.

(** C4 as stated fails: a number for [include] or for [extends] raises
    nothing. *)
Lemma number_directive_raises_nothing :
  parse_includes (fun _ => Missing) 1
    (YMap [("include", YInt 5); ("job", YMap [("extends", YInt 5)])]) "." =
    ([], Ok (YMap [("job", YMap [("extends", YInt 5)])])) /\
  build_graph (YMap [("job", YMap [("extends", YInt 5)])]) =
    Ok (mkDiGraph [(HStr "job", job_attr (YStr "job"))] []).
Proof. split; reflexivity. Qed.

Lemma parse_includes_identity_witness :
  parse_includes merge_fs 0 (YMap [("job", YMap [("script", YStr "x")])]) "." =
    ([], Ok (YMap [("job", YMap [("script", YStr "x")])])) /\
  parse_includes merge_fs 0 (YSeq [YStr "include"]) "." =
    ([], Ok (YSeq [YStr "include"])).
Proof.
  split.
  - apply (proj1 (parse_includes_identity merge_fs 0 ".")). reflexivity.
  - apply (proj2 (parse_includes_identity merge_fs 0 ".")). intros m0. discriminate.
Defined.

Lemma parse_includes_non_mapping_file_witness :
  parse_includes empty_file_fs 1
    (YMap [("include", YSeq [YMap [("local", YStr "a.yml")];
                             YMap [("local", YStr "empty.yml")]]);
           ("job", YNull)]) "." =
    (["./a.yml"; "./empty.yml"], Raise AttributeError) /\
  AttributeError <> FileNotFoundError /\ AttributeError <> YAMLError.
Proof.
  apply (@parse_includes_non_mapping_file empty_file_fs 0 "."
           [("include", YSeq [YMap [("local", YStr "a.yml")];
                              YMap [("local", YStr "empty.yml")]]);
            ("job", YNull)]
           (YSeq [YMap [("local", YStr "a.yml")]; YMap [("local", YStr "empty.yml")]])
           [YMap [("local", YStr "a.yml")]]
           (YMap [("local", YStr "empty.yml")]) [] "empty.yml" YNull
           ["./a.yml"]
           [("include", YSeq [YMap [("local", YStr "a.yml")];
                              YMap [("local", YStr "empty.yml")]]);
            ("job", YNull);
            ("build", YMap [("stage", YStr "a")]); ("lint", YInt 1)]).
  - reflexivity.
  - reflexivity.
  - reflexivity.
  - reflexivity.
  - reflexivity.
  - intros m0. discriminate.
Defined.

(* ------------------------------------------------------------------ *)
(** ** More on the resolver: exceptions, cycles, order of the keys *)

(** An exception in the body of the loop ends the call. *)
Lemma parse_includes_raises : forall fs fuel base m includes pre include post
    tr1 m1 tr e,
  dict_get "include" m = Some includes ->
  as_list includes = pre ++ include :: post ->
  for_includes fs (parse_includes fs fuel) base pre m = (tr1, Ok m1) ->
  merge_include fs (parse_includes fs fuel) base m1 include = (tr, Raise e) ->
  parse_includes fs (S fuel) (YMap m) base = (tr1 ++ tr, Raise e).
Proof.
  intros fs fuel base m includes pre include post tr1 m1 tr e Hi Hl Hpre Hm.
  rewrite (parse_includes_unfold fs fuel m base Hi), Hl.
  rewrite (for_includes_app fs _ base pre (include :: post) m Hpre).
  simpl for_includes.
  rewrite (io_bind_raise _ Hm). simpl.
  apply io_bind_raise. reflexivity.
Qed.

(** X1.  When the entries before it were merged and the file of a local
    entry cannot be opened or parsed, the call raises right after trying to
    open it, with the exception that [open] or [yaml.safe_load] raises for
    the file, unchanged: [FileNotFoundError] for a missing file, [YAMLError]
    for a file that is not valid YAML, or whichever other exception the file
    gives ([IsADirectoryError], [UnicodeDecodeError], ...). *)
Theorem parse_includes_unreadable_file : forall fs fuel base m includes
    pre include post rel tr1 m1,
  dict_get "include" m = Some includes ->
  as_list includes = pre ++ include :: post ->
  for_includes fs (parse_includes fs fuel) base pre m = (tr1, Ok m1) ->
  local_path include = Some (YStr rel) ->
  (forall doc, fs (join base rel) <> Parsed doc) ->
  parse_includes fs (S fuel) (YMap m) base =
    (tr1 ++ [join base rel],
     Raise (match fs (join base rel) with
            | Invalid => YAMLError
            | Fails e => e
            | _ => FileNotFoundError
            end)).
Proof.
  intros fs fuel base m includes pre include post rel tr1 m1 Hi Hl Hpre Hloc Hf.
  eapply parse_includes_raises; try eassumption.
  rewrite (merge_include_local fs _ base m1 include Hloc).
  unfold safe_load.
  destruct (fs (join base rel)) as [| | doc | e] eqn:F; try reflexivity.
  exfalso. apply (Hf doc). reflexivity.
Qed.

Lemma parse_includes_unreadable_file_witness :
  parse_includes directory_fs 1
    (YMap [("include", YSeq [YMap [("local", YStr "a.yml")];
                             YMap [("local", YStr "jobs")]]);
           ("job", YNull)]) "." =
    (["./a.yml"; "./jobs"], Raise (OtherException "IsADirectoryError")).
Proof.
  apply (@parse_includes_unreadable_file directory_fs 0 "."
           [("include", YSeq [YMap [("local", YStr "a.yml")];
                              YMap [("local", YStr "jobs")]]);
            ("job", YNull)]
           (YSeq [YMap [("local", YStr "a.yml")]; YMap [("local", YStr "jobs")]])
           [YMap [("local", YStr "a.yml")]]
           (YMap [("local", YStr "jobs")]) [] "jobs"
           ["./a.yml"]
           [("include", YSeq [YMap [("local", YStr "a.yml")];
                              YMap [("local", YStr "jobs")]]);
            ("job", YNull);
            ("build", YMap [("stage", YStr "a")]); ("lint", YInt 1)]).
  - reflexivity.
  - reflexivity.
  - reflexivity.
  - reflexivity.
  - intros doc. discriminate.
Defined.

(** X2.  When the entries before it were merged and the [local] of an
    entry is not a string, the call raises [TypeError] and opens no file for
    the entry. *)
Theorem parse_includes_local_not_a_path : forall fs fuel base m includes
    pre include post v tr1 m1,
  dict_get "include" m = Some includes ->
  as_list includes = pre ++ include :: post ->
  for_includes fs (parse_includes fs fuel) base pre m = (tr1, Ok m1) ->
  local_path include = Some v ->
  (forall s, v <> YStr s) ->
  parse_includes fs (S fuel) (YMap m) base = (tr1, Raise TypeError).
Proof.
  intros fs fuel base m includes pre include post v tr1 m1 Hi Hl Hpre Hloc Hv.
  rewrite <- (app_nil_r tr1).
  eapply parse_includes_raises; try eassumption.
  apply merge_include_not_str with (v := v); assumption.
Qed.

Lemma parse_includes_local_not_a_path_witness :
  parse_includes merge_fs 1
    (YMap [("include", YMap [("local", YInt 5)]); ("job", YNull)]) "." =
    ([], Raise TypeError).
Proof.
  apply (@parse_includes_local_not_a_path merge_fs 0 "."
           [("include", YMap [("local", YInt 5)]); ("job", YNull)]
           (YMap [("local", YInt 5)]) [] (YMap [("local", YInt 5)]) [] (YInt 5)
           [] [("include", YMap [("local", YInt 5)]); ("job", YNull)]).
  - reflexivity.
  - reflexivity.
  - reflexivity.
  - reflexivity.
  - intros s. discriminate.
Defined.

(** X3.  An exception raised while an included file is resolved comes out
    of the call as it is, after the files opened so far. *)
Theorem parse_includes_nested_exception : forall fs fuel base m includes
    pre include post rel doc tr1 m1 tr2 e,
  dict_get "include" m = Some includes ->
  as_list includes = pre ++ include :: post ->
  for_includes fs (parse_includes fs fuel) base pre m = (tr1, Ok m1) ->
  local_path include = Some (YStr rel) ->
  fs (join base rel) = Parsed doc ->
  parse_includes fs fuel doc (dirname (join base rel)) = (tr2, Raise e) ->
  parse_includes fs (S fuel) (YMap m) base =
    (tr1 ++ join base rel :: tr2, Raise e).
Proof.
  intros fs fuel base m includes pre include post rel doc tr1 m1 tr2 e
    Hi Hl Hpre Hloc Hf Hrec.
  eapply parse_includes_raises; try eassumption.
  rewrite (merge_include_local fs _ base m1 include Hloc).
  unfold safe_load. rewrite Hf. unfold io_bind at 1. simpl.
  rewrite (io_bind_raise _ Hrec). reflexivity.
Qed.

Lemma parse_includes_nested_exception_witness :
  parse_includes dangling_fs 2
    (YMap [("include", YMap [("local", YStr "outer.yml")])]) "." =
    (["./outer.yml"; "./gone.yml"], Raise FileNotFoundError).
Proof.
  apply (@parse_includes_nested_exception dangling_fs 1 "."
           [("include", YMap [("local", YStr "outer.yml")])]
           (YMap [("local", YStr "outer.yml")]) []
           (YMap [("local", YStr "outer.yml")]) [] "outer.yml"
           (YMap [("include", YMap [("local", YStr "gone.yml")])])
           [] [("include", YMap [("local", YStr "outer.yml")])]
           ["./gone.yml"] FileNotFoundError).
  - reflexivity.
  - reflexivity.
  - reflexivity.
  - reflexivity.
  - reflexivity.
  - reflexivity.
Defined.

Section ResolverDepth.
Variable fs : filesystem.

(** The call for an included file takes less fuel than the call that
    includes it. *)
Lemma local_entry_resolved_lt : forall fuel d base tr r rel,
  parse_includes fs fuel d base = (tr, Ok r) ->
  local_entry d rel ->
  exists doc fuel' tr1 r1,
    fuel' < fuel /\
    fs (join base rel) = Parsed doc /\
    parse_includes fs fuel' doc (dirname (join base rel)) = (tr1, Ok r1).
Proof.
  intros fuel d base tr r rel H (m & includes & include & -> & Hi & Hin & Hl).
  apply parse_includes_ok in H.
  destruct H as [(Hp & _ & _) | (f0 & m0 & includes0 & m' & -> & Hd & Hi0 & Hrun & ->)].
  - rewrite (Hp m eq_refl) in Hi. discriminate.
  - injection Hd as <-. assert (includes0 = includes) by congruence. subst.
    destruct (loop_run_entry Hrun include Hin Hl)
      as (doc & tr1 & r1 & Hf & Hrec & _).
    exists doc, f0, tr1, (YMap r1). repeat split; auto.
Qed.

Lemma included_file_resolved_lt : forall d base path doc,
  included_file fs d base path doc ->
  forall fuel tr r,
    parse_includes fs fuel d base = (tr, Ok r) ->
    exists fuel' tr1 r1,
      fuel' < fuel /\
      parse_includes fs fuel' doc (dirname path) = (tr1, Ok r1).
Proof.
  intros d base path doc H.
  induction H as [d base rel doc Hloc Hf | d base rel doc path doc' Hloc Hf _ IH];
    intros fuel tr r Hp;
    destruct (@local_entry_resolved_lt fuel d base tr r rel Hp Hloc)
      as (doc0 & f1 & tr1 & r1 & Hlt & Hf0 & Hrec);
    assert (doc0 = doc) by congruence; subst doc0.
  - exists f1, tr1, r1. auto.
  - destruct (IH _ _ _ Hrec) as (f2 & tr2 & r2 & Hlt2 & Hrec2).
    exists f2, tr2, r2. split; [lia | exact Hrec2].
Qed.
End ResolverDepth.

(** X4.  There is no guard against cycles: a document whose chain of
    includes comes back to the document itself, in the same directory, is
    not resolved, however deep the recursion is allowed to go. *)
Theorem cyclic_include_never_resolved : forall fs d base path,
  included_file fs d base path d ->
  dirname path = base ->
  forall fuel tr r, parse_includes fs fuel d base <> (tr, Ok r).
Proof.
  intros fs d base path Hcycle Hdir fuel.
  induction fuel as [fuel IH] using lt_wf_ind. intros tr r Hp.
  destruct (included_file_resolved_lt Hcycle fuel Hp)
    as (fuel' & tr1 & r1 & Hlt & Hrec).
  rewrite Hdir in Hrec. exact (IH fuel' Hlt tr1 r1 Hrec).
Qed.

Lemma cyclic_include_never_resolved_witness :
  snd (parse_includes self_fs 5 self_doc ".") = OutOfFuel.
Proof.
  destruct (parse_includes self_fs 5 self_doc ".") as [tr [r | e |]] eqn:E;
    [| vm_compute in E; discriminate | reflexivity].
  exfalso.
  apply (@cyclic_include_never_resolved self_fs self_doc "." "./self.yml")
    with (fuel := 5) (tr := tr) (r := r).
  - apply (@included_direct self_fs self_doc "." "self.yml" self_doc).
    + exists [("include", YMap [("local", YStr "self.yml")]);
              ("job", YMap [("script", YStr "x")])],
             (YMap [("local", YStr "self.yml")]),
             (YMap [("local", YStr "self.yml")]).
      repeat split. left. reflexivity.
    + reflexivity.
  - reflexivity.
  - exact E.
Defined.

Section AssocOrder.
Context {K V : Type}.
Variable eqb : K -> K -> bool.
Hypothesis eqb_eq : forall x y, eqb x y = true <-> x = y.

Lemma keys_set_shape : forall k (v : V) d,
  map fst (Assoc.set eqb k v d) =
  map fst d ++ (if Assoc.mem eqb k d then [] else [k]).
Proof.
  intros k v d. induction d as [|[k0 v0] d IH]; simpl; [reflexivity|].
  unfold Assoc.mem. simpl. destruct (eqb k k0) eqn:E; simpl.
  - rewrite app_nil_r. reflexivity.
  - rewrite IH. reflexivity.
Qed.

Lemma keys_update_shape : forall (other d : list (K * V)),
  exists extra,
    map fst (Assoc.update eqb d other) = map fst d ++ extra /\
    forall k, In k extra -> ~ In k (map fst d).
Proof.
  unfold Assoc.update.
  induction other as [|[k0 v0] other IH]; intro d; simpl.
  - exists []. rewrite app_nil_r. split; [reflexivity | intros k []].
  - destruct (IH (Assoc.set eqb k0 v0 d)) as (extra & Hkeys & Hnew).
    rewrite keys_set_shape in Hkeys.
    exists ((if Assoc.mem eqb k0 d then [] else [k0]) ++ extra).
    split; [rewrite Hkeys, app_assoc; reflexivity|].
    intros k Hin Hd. apply in_app_or in Hin. destruct Hin as [Hin | Hin].
    + destruct (Assoc.mem eqb k0 d) eqn:M; [destruct Hin|].
      destruct Hin as [<- | []].
      apply (mem_In eqb_eq) in Hd. congruence.
    + apply (Hnew k Hin). apply (keys_set eqb eqb_eq). right. exact Hd.
Qed.

Lemma keys_del_filter : forall k (d : list (K * V)),
  map fst (Assoc.del eqb k d) = filter (fun x => negb (eqb k x)) (map fst d).
Proof.
  intros k d. unfold Assoc.del.
  induction d as [|[k0 v0] d IH]; simpl; [reflexivity|].
  destruct (eqb k k0); simpl; rewrite IH; reflexivity.
Qed.
End AssocOrder.

Lemma loop_run_keys_shape : forall fs rec base includes m tr m',
  loop_run fs rec base includes m tr m' ->
  exists extra,
    dict_keys m' = dict_keys m ++ extra /\
    forall k, In k extra -> ~ In k (dict_keys m).
Proof.
  intros fs rec base includes m tr m' H.
  induction H as [m | include rest m tr m' Hl Hrun IH
                  | include rest rel doc tr1 r m tr m' Hl Hf Hr Hrun IH].
  - exists []. rewrite app_nil_r. split; [reflexivity | intros k []].
  - exact IH.
  - destruct IH as (extra2 & Hkeys2 & Hnew2).
    destruct (keys_update_shape String.eqb string_eqb_eq (without_include r) m)
      as (extra1 & Hkeys1 & Hnew1).
    unfold dict_keys, dict_update in *.
    exists (extra1 ++ extra2). split.
    + rewrite Hkeys2, Hkeys1, app_assoc. reflexivity.
    + intros k Hin Hm. apply in_app_or in Hin. destruct Hin as [Hin | Hin].
      * exact (Hnew1 k Hin Hm).
      * apply (Hnew2 k Hin). rewrite Hkeys1. apply in_or_app. left. exact Hm.
Qed.

(** X5.  The document returned has the keys of the document given, but
    [include], in the order they had, and after them the keys, other than
    [include], that files of the include chain have and the document given
    has not: all of these, and no others. *)
Theorem parse_includes_keeps_key_order : forall fs fuel m base tr m',
  parse_includes fs fuel (YMap m) base = (tr, Ok (YMap m')) ->
  exists extra,
    dict_keys m' =
      filter (fun k => negb (String.eqb "include" k)) (dict_keys m) ++ extra /\
    forall k, In k extra <->
      ~ In k (dict_keys m) /\ k <> "include" /\
      exists path doc,
        included_file fs (YMap m) base path doc /\ In k (keys_of doc).
Proof.
  intros fs fuel m base tr m' Hp.
  assert (Hshape : exists extra,
            dict_keys m' =
              filter (fun k => negb (String.eqb "include" k)) (dict_keys m) ++ extra /\
            forall k, In k extra -> ~ In k (dict_keys m)).
  { pose proof Hp as H. apply parse_includes_ok in H.
    destruct H as [(Hplain & _ & Hr) | (f0 & m0 & includes & m1 & _ & Hd & Hi & Hrun & Hr)].
    - injection Hr as ->. exists []. rewrite app_nil_r. split; [| intros k []].
      specialize (Hplain m eq_refl). apply dict_get_None in Hplain.
      symmetry. apply forallb_filter_id. apply forallb_forall.
      intros k Hk. apply negb_true_iff. apply String.eqb_neq.
      intro Heq. subst k. contradiction.
    - injection Hd as <-. injection Hr as ->.
      destruct (loop_run_keys_shape Hrun) as (extra & Hkeys & Hnew).
      exists (filter (fun k => negb (String.eqb "include" k)) extra). split.
      + unfold dict_keys, dict_del in *.
        rewrite (keys_del_filter String.eqb), Hkeys, filter_app. reflexivity.
      + intros k Hin. apply filter_In in Hin. apply Hnew. apply Hin. }
  destruct Hshape as (extra & Hkeys & Hnew).
  exists extra. split; [exact Hkeys|].
  intro k. split.
  - intro Hin.
    assert (Hk : In k (dict_keys m')).
    { rewrite Hkeys. apply in_or_app. right. exact Hin. }
    split; [exact (Hnew k Hin) | split].
    + intro Heq. subst k.
      exact (parse_includes_top_level fs _ _ _ Hp Hk).
    + unfold dict_keys in Hk. apply in_map_iff in Hk.
      destruct Hk as ([k' v] & Hfst & Hb). simpl in Hfst. subst k'.
      destruct (parse_includes_binding fs _ _ _ Hp k v Hb)
        as [Hm | (path & doc & Hinc & Hdoc)].
      * exfalso. apply (Hnew k Hin). apply (in_map fst) in Hm. exact Hm.
      * exists path, doc. split; [exact Hinc|].
        rewrite keys_of_items. apply (in_map fst) in Hdoc. exact Hdoc.
  - intros (Hnot & Hne & path & doc & Hinc & Hdoc).
    destruct (included_file_resolved Hinc fuel Hp) as (_ & _ & Hin).
    specialize (Hin k Hdoc Hne). simpl in Hin. rewrite Hkeys in Hin.
    apply in_app_or in Hin. destruct Hin as [Hin | Hin]; [| exact Hin].
    apply filter_In in Hin. exfalso. apply Hnot. apply Hin.
Qed.

Lemma parse_includes_keeps_key_order_witness :
  exists extra,
    dict_keys [("build", YMap [("extends", YStr ".setup")]); ("deploy", YInt 3);
               ("lint", YInt 1)] =
      filter (fun k => negb (String.eqb "include" k)) (dict_keys merge_root) ++ extra /\
    forall k, In k extra <->
      ~ In k (dict_keys merge_root) /\ k <> "include" /\
      exists path doc,
        included_file merge_fs (YMap merge_root) "." path doc /\ In k (keys_of doc).
Proof.
  apply (@parse_includes_keeps_key_order merge_fs 1 merge_root "."
           ["./a.yml"; "./b.yml"]).
  reflexivity.
Defined.

(* ------------------------------------------------------------------ *)
(** ** More on the graph: what it has and what it reads *)

Lemma triple_consequence : forall A (c : St A) (P P' : frame -> Prop)
    (Q Q' : A -> frame -> Prop) (R R' : frame -> Prop),
  (forall s, P' s -> P s) ->
  (forall a s, Q a s -> Q' a s) ->
  (forall s, R s -> R' s) ->
  triple P c Q R -> triple P' c Q' R'.
Proof.
  intros A c P P' Q Q' R R' HP HQ HR H s Hs. specialize (H s (HP s Hs)).
  destruct (c s) as [[a | e |] s']; auto.
Qed.

Lemma triple_conj : forall A (c : St A) (P : frame -> Prop)
    (Q Q' : A -> frame -> Prop) (R : frame -> Prop),
  triple P c Q R -> triple P c Q' R ->
  triple P c (fun a s => Q a s /\ Q' a s) R.
Proof.
  intros A c P Q Q' R H H' s Hs. specialize (H s Hs). specialize (H' s Hs).
  destruct (c s) as [[a | e |] s']; auto.
Qed.

(** The loop rule for a second invariant that needs the first. *)
Lemma triple_for_each_also : forall A (body : A -> St unit)
    (I : list A -> frame -> Prop) (S : frame -> Prop) R (l : list A),
  (forall done x rest, l = done ++ x :: rest ->
     triple (I done) (body x) (fun _ => I (done ++ [x])) R) ->
  (forall done x rest, l = done ++ x :: rest ->
     triple (fun s => I done s /\ S s) (body x) (fun _ => S) R) ->
  triple (fun s => I [] s /\ S s) (for_each l body)
    (fun _ s => I l s /\ S s) R.
Proof.
  intros A body I S R l HI HS.
  apply triple_for_each with (I := fun done s => I done s /\ S s).
  intros done x rest Hl. apply triple_conj.
  - eapply triple_consequence; [| | | apply (HI done x rest Hl)]; auto.
    intros s H. apply H.
  - apply (HS done x rest Hl).
Qed.

Section GraphSources.
Variable m : dict.

Lemma first_pass_sourced : forall g name a,
  sourced m g -> In name (dict_keys m) ->
  sourced m (mkDiGraph (Assoc.set hkey_eqb (HStr name) a (nodes g)) (edges g)).
Proof.
  intros g name a (Hn & He) Hin. split; simpl; [| exact He].
  intros k Hk. apply (keys_set hkey_eqb hkey_eqb_eq) in Hk.
  destruct Hk as [-> | Hk]; [| apply Hn, Hk].
  left. exists name. auto.
Qed.

Lemma link_sourced : forall g k parent job_name job_config,
  sourced m g ->
  In (job_name, job_config) m -> In parent (parents_of job_config) ->
  hash_key parent = Some k ->
  k <> HNone \/ Assoc.mem hkey_eqb k (nodes g) = true ->
  sourced m (link k parent job_name g).
Proof.
  intros g k parent job_name job_config (Hn & He) Hitem Hp Hk Hcase.
  split; simpl.
  - destruct (Assoc.mem hkey_eqb k (nodes g)) eqn:Hmem; [exact Hn|].
    intros k' Hk'. apply (keys_set hkey_eqb hkey_eqb_eq) in Hk'.
    destruct Hk' as [-> | Hk']; [| apply Hn, Hk'].
    right. split.
    + destruct Hcase as [Hne | ?]; [exact Hne | discriminate].
    + exists job_name, job_config, parent. auto.
  - intros e Hin. apply (keys_set edge_eqb edge_eqb_eq) in Hin.
    destruct Hin as [-> | Hin]; [| apply He, Hin].
    exists job_name, job_config, parent. auto.
Qed.

Lemma add_parent_sourced : forall done job_name job_config parent,
  In (job_name, job_config) m ->
  In parent (parents_of job_config) ->
  triple (fun s => second_pass_inv m done s /\ sourced m (graph s))
    (add_parent job_name parent)
    (fun _ s => sourced m (graph s)) (fun _ => True).
Proof.
  intros done job_name job_config parent Hitem Hparent s
    ((Hd & Hinv & Hkeys & Hdone) & Hs).
  assert (Hjob : Assoc.mem hkey_eqb (HStr job_name) (nodes (graph s)) = true).
  { apply Hkeys. apply (in_map fst) in Hitem. exact Hitem. }
  assert (Hgood : forall k, hash_key parent = Some k ->
            k <> HNone \/ Assoc.mem hkey_eqb k (nodes (graph s)) = true ->
            match add_parent job_name parent s with
            | (Ok _, s') => sourced m (graph s')
            | (_, _) => True
            end).
  { intros k Hk Hcase. rewrite (add_parent_step job_name parent s Hk Hjob Hcase).
    simpl. eapply link_sourced; eassumption. }
  destruct (hash_key parent) as [k|] eqn:Hk.
  - destruct k as [| z | str].
    + destruct (Assoc.mem hkey_eqb HNone (nodes (graph s))) eqn:Hmem.
      * apply (Hgood HNone eq_refl). right. exact Hmem.
      * rewrite (add_parent_none job_name parent s Hk Hmem). exact I.
    + apply (Hgood (HNum z) eq_refl). left. discriminate.
    + apply (Hgood (HStr str) eq_refl). left. discriminate.
  - rewrite (add_parent_unhashable job_name parent s Hk). exact I.
Qed.

Lemma add_extends_sourced : forall done item,
  In item m ->
  triple (fun s => second_pass_inv m (references done) s /\ sourced m (graph s))
    (add_extends item)
    (fun _ s => sourced m (graph s)) (fun _ => True).
Proof.
  intros done [job_name job_config] Hitem. rewrite add_extends_parents.
  apply triple_consequence with
    (P := fun s => second_pass_inv m
                     (references done ++ map (pair job_name) []) s /\
                   sourced m (graph s))
    (Q := fun (_ : unit) s =>
            second_pass_inv m
              (references done ++ map (pair job_name) (parents_of job_config)) s /\
            sourced m (graph s))
    (R := fun _ : frame => True).
  - intros s H. simpl. rewrite app_nil_r. exact H.
  - intros u s H. apply H.
  - auto.
  - apply triple_for_each_also with
      (I := fun pdone => second_pass_inv m
              (references done ++ map (pair job_name) pdone)).
    + intros pdone parent rest Hl.
      eapply triple_consequence;
        [intros s H; exact H | | |
         apply (@add_parent_triple m (references done ++ map (pair job_name) pdone)
                  job_name job_config parent Hitem)].
      * intros u s H. rewrite map_app, app_assoc. exact H.
      * auto.
      * rewrite Hl. apply in_or_app. right. left. reflexivity.
    + intros pdone parent rest Hl.
      apply add_parent_sourced with (job_config := job_config); [exact Hitem|].
      rewrite Hl. apply in_or_app. right. left. reflexivity.
Qed.

Lemma second_pass_sourced :
  triple (fun s => second_pass_inv m [] s /\ sourced m (graph s))
    (for_each m add_extends)
    (fun _ s => second_pass_inv m (references m) s /\ sourced m (graph s))
    (fun _ => True).
Proof.
  apply triple_for_each_also with
    (I := fun done => second_pass_inv m (references done)).
  - intros done item rest Hl.
    assert (Hitem : In item m).
    { rewrite Hl. apply in_or_app. right. left. reflexivity. }
    eapply triple_consequence;
      [intros s H; exact H | intros a s H; exact H | |
       apply (@add_extends_triple m done item Hitem)].
    auto.
  - intros done item rest Hl. apply add_extends_sourced.
    rewrite Hl. apply in_or_app. right. left. reflexivity.
Qed.

Lemma first_pass_keeps_sourced :
  triple (fun s => sourced m (graph s)) (for_each (dict_keys m) add_job_node)
    (fun _ s => sourced m (graph s)) (fun _ => True).
Proof.
  apply triple_for_each with (I := fun _ s => sourced m (graph s)).
  intros done name rest Hl s Hs. rewrite add_job_node_step. simpl.
  apply first_pass_sourced; [exact Hs|].
  rewrite Hl. apply in_or_app. right. left. reflexivity.
Qed.

Lemma build_graph_steps_sourced :
  triple (fun s => s = mkFrame (YMap m) empty_graph) build_graph_steps
    (fun _ s => sourced m (graph s)) (fun _ => True).
Proof.
  unfold build_graph_steps.
  eapply triple_bind; [apply triple_read_data|].
  intros d s (-> & ->). cbn [data].
  assert (T : triple (fun s => s = mkFrame (YMap m) empty_graph)
                (bind (for_each (dict_keys m) add_job_node)
                   (fun _ => bind read_data
                      (fun d' => match d' with
                                 | YMap m' => for_each m' add_extends
                                 | _ => raise AttributeError
                                 end)))
                (fun _ s => sourced m (graph s)) (fun _ => True)).
  { eapply triple_bind.
    - apply triple_conj.
      + eapply triple_consequence; [| | | apply (@first_pass_triple m (fun _ => True))].
        * intros s ->. split; [reflexivity | split].
          -- repeat split; simpl; try constructor; intros; discriminate.
          -- intros name [].
        * intros a s H. exact H.
        * auto.
      + eapply triple_consequence; [| | | apply first_pass_keeps_sourced].
        * intros s ->. split; simpl; intros x [].
        * intros a s H. exact H.
        * auto.
    - intros u. eapply triple_bind; [apply triple_read_data|].
      intros d' s (((Hd & Hinv & Hkeys) & Hs) & ->). rewrite Hd.
      assert (Hpre : second_pass_inv m [] s /\ sourced m (graph s)).
      { split; [| exact Hs].
        split; [exact Hd | split; [exact Hinv | split]].
        - exact Hkeys.
        - intros c p []. }
      pose proof (second_pass_sourced Hpre) as T.
      destruct (for_each m add_extends s) as [[a | e |] s']; [apply T | exact I | exact I]. }
  exact (T _ eq_refl).
Qed.
End GraphSources.

(** The graph returned has nothing but what the document gives rise to. *)
Lemma build_graph_sourced : forall m g,
  build_graph (YMap m) = Ok g -> sourced m g.
Proof.
  intros m g H. unfold build_graph in H.
  pose proof (build_graph_steps_sourced (m:=m) eq_refl) as T.
  destruct (build_graph_steps (mkFrame (YMap m) empty_graph)) as [[u | e |] s];
    try discriminate.
  injection H as <-. exact T.
Qed.

(** X6.  The nodes of the graph are the keys of the document and the
    parents its jobs name, and nothing else; [None] is never a node. *)
Theorem graph_nodes_exact : forall m g,
  build_graph (YMap m) = Ok g ->
  forall k, In k (map fst (nodes g)) <->
    (exists name, k = HStr name /\ In name (dict_keys m)) \/
    (k <> HNone /\
     exists job_name job_config parent,
       In (job_name, job_config) m /\ In parent (parents_of job_config) /\
       hash_key parent = Some k).
Proof.
  intros m g H k. split.
  - intro Hin. destruct (build_graph_sourced _ H) as (Hn & _). exact (Hn k Hin).
  - destruct (build_graph_sound _ H) as (_ & Hkeys & Hlinked).
    intros [(name & -> & Hin) | (_ & job_name & job_config & parent & Hitem & Hp & Hk)].
    + apply (mem_In hkey_eqb_eq). apply Hkeys. exact Hin.
    + destruct (Hlinked _ _ _ Hitem Hp) as (k' & Hk' & Hmem & _).
      assert (k' = k) by congruence. subst k'.
      apply (mem_In hkey_eqb_eq). exact Hmem.
Qed.

Lemma graph_nodes_exact_witness :
  In (HStr "base") (map fst (nodes one_job_graph)) <->
    (exists name, HStr "base" = HStr name /\ In name (dict_keys one_job)) \/
    (HStr "base" <> HNone /\
     exists job_name job_config parent,
       In (job_name, job_config) one_job /\ In parent (parents_of job_config) /\
       hash_key parent = Some (HStr "base")).
Proof. apply (@graph_nodes_exact one_job one_job_graph). reflexivity. Defined.

(** X7.  The edges of the graph are the pairs of a parent and the job that
    names it, and nothing else. *)
Theorem graph_edges_exact : forall m g,
  build_graph (YMap m) = Ok g ->
  forall u v, In (u, v) (map fst (edges g)) <->
    exists job_name job_config parent,
      In (job_name, job_config) m /\ In parent (parents_of job_config) /\
      hash_key parent = Some u /\ v = HStr job_name.
Proof.
  intros m g H u v. split.
  - intro Hin. destruct (build_graph_sourced _ H) as (_ & He).
    exact (He (u, v) Hin).
  - destruct (build_graph_sound _ H) as (_ & _ & Hlinked).
    intros (job_name & job_config & parent & Hitem & Hp & Hk & ->).
    destruct (Hlinked _ _ _ Hitem Hp) as (k' & Hk' & _ & Hedge).
    assert (k' = u) by congruence. subst k'.
    apply (get_In edge_eqb_eq) in Hedge. apply (in_map fst) in Hedge. exact Hedge.
Qed.

Lemma graph_edges_exact_witness :
  In (HStr "base", HStr "test") (map fst (edges one_job_graph)) <->
    exists job_name job_config parent,
      In (job_name, job_config) one_job /\ In parent (parents_of job_config) /\
      hash_key parent = Some (HStr "base") /\ HStr "test" = HStr job_name.
Proof. apply (@graph_edges_exact one_job one_job_graph). reflexivity. Defined.

(** X8.  For a mapping whose keys are strings, as every [YMap] is,
    [build_graph] returns a graph exactly when every parent its jobs name is
    hashable and not [None].  A key that is not a string, on which
    [job_name.startswith] fails, is outside the documents of this
    development. *)
Theorem build_graph_returns_iff : forall m,
  (exists g, build_graph (YMap m) = Ok g) <-> parents_valid m.
Proof.
  intro m. split; [| apply build_graph_returns].
  intros (g & H) job_name job_config parent Hitem Hp.
  destruct (build_graph_sound _ H) as (_ & _ & Hlinked).
  destruct (build_graph_sourced _ H) as (Hn & _).
  destruct (Hlinked _ _ _ Hitem Hp) as (k & Hk & Hmem & _).
  exists k. split; [exact Hk|].
  apply (mem_In hkey_eqb_eq) in Hmem.
  destruct (Hn k Hmem) as [(name & -> & _) | (Hne & _)]; [discriminate | exact Hne].
Qed.

(** X9.  Every node of the graph has the five attributes the drawing reads,
    those of a hidden job or those of a job, with the node itself as label;
    no node is left bare by [add_edge]. *)
Theorem graph_node_attributes : forall m g k a,
  build_graph (YMap m) = Ok g ->
  In (k, a) (nodes g) ->
  exists label, hash_key label = Some k /\
    (a = hidden_attr label \/ a = job_attr label).
Proof.
  intros m g k a H Hin.
  destruct (build_graph_sound _ H) as ((Hnd & _ & Hok & _) & _).
  apply (NoDup_In_get hkey_eqb_eq _ _ _ Hnd) in Hin.
  destruct (Hok _ _ Hin) as [(name & -> & _ & ->) | (_ & n & Hn & ->)].
  - exists (YStr name). split; [reflexivity|].
    unfold attrs_for. destruct (startswith "."%char name); auto.
  - exists n. auto.
Qed.

Lemma graph_node_attributes_witness :
  exists label, hash_key label = Some (HStr "base") /\
    (hidden_attr (YStr "base") = hidden_attr label \/
     hidden_attr (YStr "base") = job_attr label).
Proof.
  apply (@graph_node_attributes one_job one_job_graph (HStr "base")
           (hidden_attr (YStr "base"))).
  - reflexivity.
  - right. left. reflexivity.
Defined.

Lemma data_blind_bind : forall A B (c : St A) (f : A -> St B),
  data_blind c -> (forall a, data_blind (f a)) -> data_blind (bind c f).
Proof.
  intros A B c f Hc Hf d1 d2 g. unfold bind.
  destruct (Hc d1 d2 g) as (Ho & Hg).
  destruct (c (mkFrame d1 g)) as [o1 [d1' g1]].
  destruct (c (mkFrame d2 g)) as [o2 [d2' g2]].
  simpl in Ho, Hg. subst o2 g2.
  destruct o1 as [a | e |]; simpl; auto. apply Hf.
Qed.

Lemma data_blind_on_graph : forall f, data_blind (on_graph f).
Proof.
  intros f d1 d2 g. unfold on_graph. simpl. destruct (f g); simpl; auto.
Qed.

Lemma data_blind_for_each : forall A (body : A -> St unit) l,
  (forall x, data_blind (body x)) -> data_blind (for_each l body).
Proof.
  intros A body l H. induction l as [|x l IH]; simpl.
  - intros d1 d2 g. simpl. auto.
  - apply data_blind_bind; [apply H | intros ?; exact IH].
Qed.

Lemma data_blind_add_job_node : forall job_name, data_blind (add_job_node job_name).
Proof.
  intro job_name. unfold add_job_node.
  destruct (startswith "."%char job_name); apply data_blind_on_graph.
Qed.

Lemma data_blind_add_parent : forall job_name parent,
  data_blind (add_parent job_name parent).
Proof.
  intros job_name parent. unfold add_parent.
  apply data_blind_bind; [intros d1 d2 g; simpl; auto|]. intro g.
  apply data_blind_bind; [| intros ?; apply data_blind_on_graph].
  destruct (negb (has_node g parent));
    [apply data_blind_on_graph | intros d1 d2 g0; simpl; auto].
Qed.

Lemma data_blind_link_parents : forall refs, data_blind (link_parents refs).
Proof.
  intro refs. unfold link_parents. apply data_blind_for_each.
  intros [job_name parents]. apply data_blind_for_each.
  intro parent. apply data_blind_add_parent.
Qed.

(** The second pass reads the parents of each job and nothing else. *)
Lemma second_pass_reads_parents : forall m s,
  for_each m add_extends s = link_parents (job_parents m) s.
Proof.
  unfold link_parents.
  induction m as [|[job_name job_config] m IH]; intro s; [reflexivity|].
  cbn [for_each job_parents map fst snd]. unfold bind.
  rewrite add_extends_parents.
  destruct (for_each (parents_of job_config) (add_parent job_name) s)
    as [[u | e |] s']; try reflexivity.
  apply IH.
Qed.

(** [build_graph] as one run of the two passes on what it reads. *)
Lemma build_graph_reads : forall m,
  build_graph (YMap m) =
  match bind (for_each (map fst (job_parents m)) add_job_node)
             (fun _ => link_parents (job_parents m))
             (mkFrame (YMap m) empty_graph) with
  | (Ok _, s) => Ok (graph s)
  | (Raise e, _) => Raise e
  | (OutOfFuel, _) => OutOfFuel
  end.
Proof.
  intro m.
  assert (Hkeys : map fst (job_parents m) = dict_keys m).
  { unfold job_parents, dict_keys. rewrite map_map. reflexivity. }
  rewrite Hkeys.
  unfold build_graph, build_graph_steps, bind at 1, read_data. cbn [data].
  unfold bind.
  pose proof (@keeps_data_for_each string add_job_node (dict_keys m)
                keeps_data_add_job_node (mkFrame (YMap m) empty_graph)) as Hd.
  destruct (for_each (dict_keys m) add_job_node (mkFrame (YMap m) empty_graph))
    as [[u | e |] s]; try reflexivity.
  simpl in Hd. rewrite Hd. rewrite second_pass_reads_parents. reflexivity.
Qed.

(** X10.  The graph depends on the keys of the document, in their order, and
    on the parents each definition names, and on nothing else: other fields
    of a job are not read, and a parent given as a string is the same as a
    list of that one parent. *)
Theorem build_graph_reads_keys_and_parents : forall m1 m2,
  job_parents m1 = job_parents m2 ->
  build_graph (YMap m1) = build_graph (YMap m2).
Proof.
  intros m1 m2 H. rewrite !build_graph_reads, H.
  assert (Hb : data_blind
                 (bind (for_each (map fst (job_parents m2)) add_job_node)
                       (fun _ => link_parents (job_parents m2)))).
  { apply data_blind_bind.
    - apply data_blind_for_each. apply data_blind_add_job_node.
    - intros ?. apply data_blind_link_parents. }
  destruct (Hb (YMap m1) (YMap m2) empty_graph) as (Ho & Hg).
  destruct (bind (for_each (map fst (job_parents m2)) add_job_node)
              (fun _ => link_parents (job_parents m2))
              (mkFrame (YMap m1) empty_graph)) as [o1 s1].
  destruct (bind (for_each (map fst (job_parents m2)) add_job_node)
              (fun _ => link_parents (job_parents m2))
              (mkFrame (YMap m2) empty_graph)) as [o2 s2].
  simpl in Ho, Hg. subst o2. rewrite Hg. reflexivity.
Qed.

Lemma build_graph_reads_keys_and_parents_witness :
  build_graph (YMap one_job) = build_graph (YMap one_job_list).
Proof.
  apply (@build_graph_reads_keys_and_parents one_job one_job_list).
  reflexivity.
Defined.










(* ------------------------------------------------------------------ *)
(** ** From the root file to the graph *)

(** X12.  [parse_gitlab_ci_yaml] opens the root file first, as the path it
    is given; when the root can be loaded, the other files it opens are the
    include paths of the chain, those of the root taken from the directory
    of the absolute path of the root file. *)
Theorem root_include_paths : forall abspath fs file_path d,
  fs file_path = Parsed d ->
  loadable fs d (dirname (abspath file_path)) ->
  exists fuel0 tr r,
    (forall fuel, fuel0 <= fuel ->
       parse_gitlab_ci_yaml abspath fs fuel file_path = (file_path :: tr, Ok r)) /\
    (forall p, In p tr <->
       (exists rel, local_entry d rel /\
          p = join (dirname (abspath file_path)) rel) \/
       (exists path doc rel,
           included_file fs d (dirname (abspath file_path)) path doc /\
           local_entry doc rel /\ p = join (dirname path) rel)).
Proof.
  intros abspath fs file_path d Hf Hload.
  destruct (loadable_returns Hload) as (fuel0 & tr & r & Hp).
  exists fuel0, tr, r. split.
  - intros fuel Hle. unfold parse_gitlab_ci_yaml, safe_load. rewrite Hf.
    unfold io_bind. simpl.
    rewrite (parse_includes_fuel fs _ _ Hp Hle). reflexivity.
  - intro p. split.
    + intro Hin. eapply opened_is_include_path; eassumption.
    + intros [(rel & Hloc & ->) | (path & doc & rel & Hinc & Hloc & ->)].
      * destruct (@local_entry_resolved fs fuel0 d _ tr r rel Hp Hloc)
          as (_ & _ & _ & _ & _ & _ & Hopen & _).
        exact Hopen.
      * destruct (included_file_resolved Hinc fuel0 Hp) as (_ & Hloc' & _).
        apply Hloc'. exact Hloc.
Qed.

Lemma project_root_loadable :
  loadable project_fs chain_root (dirname (project_abspath ".gitlab-ci.yml")).
Proof.
  eapply loadable_include; [reflexivity|]. simpl.
  eapply entries_local with (rel := "sub/b.yml"); [reflexivity | reflexivity | | constructor].
  eapply loadable_include; [reflexivity|]. simpl.
  eapply entries_local with (rel := "c.yml"); [reflexivity | reflexivity | | constructor].
  apply loadable_plain. intros m [= <-]. reflexivity.
Qed.

Lemma root_include_paths_witness :
  exists fuel0 tr r,
    (forall fuel, fuel0 <= fuel ->
       parse_gitlab_ci_yaml project_abspath project_fs fuel ".gitlab-ci.yml" =
         (".gitlab-ci.yml" :: tr, Ok r)) /\
    (forall p, In p tr <->
       (exists rel, local_entry chain_root rel /\ p = join "/a" rel) \/
       (exists path doc rel,
           included_file project_fs chain_root "/a" path doc /\
           local_entry doc rel /\ p = join (dirname path) rel)).
Proof.
  exact (@root_include_paths project_abspath project_fs ".gitlab-ci.yml" chain_root
           eq_refl project_root_loadable).
Defined.

(** X13.  When the root file parses to something that is not a mapping, an
    empty file for one, [main] raises [AttributeError] from [build_graph]
    after opening the root file only. *)
Theorem main_root_not_a_mapping : forall abspath fs fuel d,
  fs ".gitlab-ci.yml" = Parsed d ->
  (forall m, d <> YMap m) ->
  main abspath fs fuel = ([".gitlab-ci.yml"], Raise AttributeError).
Proof.
  intros abspath fs fuel d Hf Hd.
  unfold main, parse_gitlab_ci_yaml, safe_load. rewrite Hf.
  unfold io_bind at 2. simpl.
  rewrite (parse_includes_plain fs fuel)
    by (intros m ->; exfalso; apply (Hd m); reflexivity).
  unfold io_bind. simpl.
  destruct d as [| | | | | m]; try reflexivity.
  exfalso. apply (Hd m). reflexivity.
Qed.

Lemma main_root_not_a_mapping_witness :
  main project_abspath empty_project_fs 0 =
    ([".gitlab-ci.yml"], Raise AttributeError).
Proof.
  apply (@main_root_not_a_mapping project_abspath empty_project_fs 0 YNull).
  - reflexivity.
  - intros m. discriminate.
Defined.

(** X14.  When [main] gets to a graph, every key other than [include] of the
    root file and of every file of its include chain is a node of it. *)
Theorem main_graph_has_included_jobs : forall abspath fs fuel d tr g,
  fs ".gitlab-ci.yml" = Parsed d ->
  main abspath fs fuel = (tr, Ok g) ->
  (forall k, In k (keys_of d) -> k <> "include" ->
     In (HStr k) (map fst (nodes g))) /\
  (forall path doc k,
     included_file fs d (dirname (abspath ".gitlab-ci.yml")) path doc ->
     In k (keys_of doc) -> k <> "include" ->
     In (HStr k) (map fst (nodes g))).
Proof.
  intros abspath fs fuel d tr g Hf H. unfold main in H.
  apply io_bind_ok in H. destruct H as (tr1 & r & tr2 & Hp & Hb & _).
  injection Hb as _ Hb.
  unfold parse_gitlab_ci_yaml in Hp. apply io_bind_ok in Hp.
  destruct Hp as (t1 & d' & t2 & Hl & Hp & _).
  unfold safe_load in Hl. rewrite Hf in Hl. injection Hl as _ <-.
  assert (Hr : exists mr, r = YMap mr).
  { destruct r as [| | | | | mr]; try discriminate. exists mr. reflexivity. }
  destruct Hr as (mr & ->).
  destruct (build_graph_sound _ Hb) as (_ & Hkeys & _).
  split.
  - intros k Hk Hne. apply (mem_In hkey_eqb_eq). apply Hkeys.
    change (In k (keys_of (YMap mr))).
    eapply parse_includes_keeps_keys; eassumption.
  - intros path doc k Hinc Hk Hne. apply (mem_In hkey_eqb_eq). apply Hkeys.
    destruct (included_file_resolved Hinc fuel Hp) as (_ & _ & Hin).
    exact (Hin k Hk Hne).
Qed.

Lemma main_graph_has_included_jobs_witness :
  exists g, snd (main project_abspath project_fs 2) = Ok g /\
    In (HStr "test") (map fst (nodes g)) /\
    In (HStr "c-job") (map fst (nodes g)).
Proof.
  destruct (main project_abspath project_fs 2) as [tr [g | e |]] eqn:E;
    try (vm_compute in E; discriminate).
  exists g. split; [reflexivity|].
  destruct (@main_graph_has_included_jobs project_abspath project_fs 2
              chain_root tr g eq_refl E) as (Hroot & Hinc).
  split.
  - apply Hroot; [simpl; auto | discriminate].
  - apply (Hinc "/a/sub/c.yml" (YMap [("c-job", YMap [("script", YStr "c")])])).
    + apply (@included_nested project_fs chain_root "/a" "sub/b.yml"
               (YMap [("include", YMap [("local", YStr "c.yml")]);
                      ("b-job", YMap [("include", YStr "kept")])])).
      * exists [("include", YMap [("local", YStr "sub/b.yml")]);
                ("test", YMap [("script", YStr "t")])],
               (YMap [("local", YStr "sub/b.yml")]),
               (YMap [("local", YStr "sub/b.yml")]).
        repeat split. left. reflexivity.
      * reflexivity.
      * apply (@included_direct project_fs _ "/a/sub" "c.yml"
                 (YMap [("c-job", YMap [("script", YStr "c")])])).
        -- exists [("include", YMap [("local", YStr "c.yml")]);
                   ("b-job", YMap [("include", YStr "kept")])],
                  (YMap [("local", YStr "c.yml")]),
                  (YMap [("local", YStr "c.yml")]).
           repeat split. left. reflexivity.
        -- reflexivity.
    + simpl. auto.
    + discriminate.
Defined.

(* ------------------------------------------------------------------ *)
(** ** The keys of a dictionary stay distinct *)

Lemma dict_update_NoDup : forall (other d : dict),
  NoDup (dict_keys d) -> NoDup (dict_keys (dict_update d other)).
Proof.
  unfold dict_keys, dict_update, Assoc.update.
  induction other as [|[k v] other IH]; intros d H; simpl; [exact H|].
  apply IH. apply (NoDup_set string_eqb_eq). exact H.
Qed.

Lemma loop_run_NoDup : forall fs rec base includes m tr m',
  loop_run fs rec base includes m tr m' ->
  NoDup (dict_keys m) -> NoDup (dict_keys m').
Proof.
  intros fs rec base includes m tr m' H.
  induction H; intro Hnd; auto.
  apply IHloop_run. apply dict_update_NoDup. exact Hnd.
Qed.

(** X15.  Merging keeps a dictionary a dictionary: when the keys of the
    document given are distinct, so are the keys of the document returned,
    whatever the included files hold. *)
Theorem parse_includes_keys_distinct : forall fs fuel m base tr m',
  NoDup (dict_keys m) ->
  parse_includes fs fuel (YMap m) base = (tr, Ok (YMap m')) ->
  NoDup (dict_keys m').
Proof.
  intros fs fuel m base tr m' Hnd H. apply parse_includes_ok in H.
  destruct H as [(_ & _ & Hr) | (f0 & m0 & includes & m1 & _ & Hd & _ & Hrun & Hr)].
  - injection Hr as ->. exact Hnd.
  - injection Hd as <-. injection Hr as ->.
    unfold dict_keys, dict_del. rewrite (keys_del_filter String.eqb).
    apply NoDup_filter. exact (loop_run_NoDup Hrun Hnd).
Qed.

Lemma parse_includes_keys_distinct_witness :
  NoDup (dict_keys [("build", YMap [("extends", YStr ".setup")]);
                    ("deploy", YInt 3); ("lint", YInt 1)]).
Proof.
  apply (@parse_includes_keys_distinct merge_fs 1 merge_root "."
           ["./a.yml"; "./b.yml"]).
  - repeat constructor; simpl; intuition discriminate.
  - reflexivity.
Defined.
